(** * Duration alignment and attention guides (get_durations.py)

    A shallow embedding of the timing code of [get_durations.py]:
    [resample_timings], [match_up], [durations_to_attention_matrix],
    [write_transcript] and [read_transcript], followed by the properties the
    specification states about them.

    Conventions of the embedding.
    - A Python call either returns a value or raises; [result] keeps the two
      apart, and a returned [None] is the value [Return None].
    - Times are whole numbers of one common tick, the tick a power of two
      (half a millisecond for the floats 5.0, 50.0 and 12.5 of the script and
      lengths that are multiples of them).  The code computes on them in
      binary64, which holds every whole number of ticks up to 2^53 and
      rounds beyond; the embedding computes in [Z] and does not round.  The
      two agree as long as no number the code computes leaves that range:
      [%] is exact on all floats, and a sum, a difference, a product or a
      distance [sqrt ((a - b) * (a - b))] of whole numbers in the range
      that itself lies in the range is that whole number, and so is the
      ceiling of a quotient of two of them.  [binary64_exact] marks the
      range, and every theorem about the numbers [resample_timings] returns
      assumes that [to_rate], a total that is given and the end of the
      grid, the largest number the call computes without a total, lie in
      it; outside it the theorems say nothing about the code.
    - The soft guide [get_attention_guide] is left out: its entries come from
      the [exp] of the C library and are rounded to float32 when they are
      stored, and nothing here stands for either.
    - A Python [str] is a [list ascii]: a sequence of code points below 256. *)

From Stdlib Require Import ZArith Lia Ascii String.
From stdpp Require Import list gmap sorting strings pretty.

Local Open Scope Z_scope.

(** ** Outcomes of a call *)

Abbreviation str := (list ascii).

(** A literal of the source, as a [str]. *)
Definition lit (s : string) : str := list_ascii_of_string s.

(** What an [assert] carries as its message. *)
Inductive assert_info :=
  | NoInfo
  | Totals (reconstructed total : Z)
  | TokenPair (target source : str)
  | Fields (line : list str).

Inductive exn :=
  | AssertionError (info : assert_info)
  | IndexError
  | ValueError.

(** [NoFuel] is the outcome of a loop model cut short; the theorems show it
    is never the outcome of a call. *)
Inductive result (A : Type) :=
  | Return (a : A)
  | Raise (e : exn)
  | NoFuel.
Arguments Return {A} a.
Arguments Raise {A} e.
Arguments NoFuel {A}.

(** Sequencing: the first call that raises ends the computation. *)
Global Instance result_bind : MBind result := fun A B k r =>
  match r with
  | Return a => k a
  | Raise e => Raise e
  | NoFuel => NoFuel
  end.

Definition assert (b : bool) (info : assert_info) : result unit :=
  if b then Return tt else Raise (AssertionError info).

Definition Zsum (l : list Z) : Z := foldr Z.add 0 l.
Global Arguments Zsum : simpl never.

(** ** resample_timings *)

(** [x % r] on floats: the remainder has the sign of [r], and [x % 0.0] is
    nan, rendered as [None]. *)
Definition np_mod (x r : Z) : option Z :=
  if decide (r = 0) then None else Some (x mod r).

(** [v == 0] for a remainder [v]; nan is not equal to 0. *)
Definition is_zero (v : option Z) : bool :=
  match v with
  | Some 0 => true
  | _ => false
  end.

(** [np.cumsum]. *)
Fixpoint cumsum_from (acc : Z) (l : list Z) : list Z :=
  match l with
  | [] => []
  | x :: l' => (acc + x) :: cumsum_from (acc + x) l'
  end.

Definition cumsum (l : list Z) : list Z := cumsum_from 0 l.

(** [a[-1]]. *)
Definition item_last {A} (l : list A) : result A :=
  match last l with
  | Some x => Return x
  | None => Raise IndexError
  end.

(** [a[i]] for an index [i] that is not negative. *)
Definition item {A} (l : list A) (i : nat) : result A :=
  match l !! i with
  | Some x => Return x
  | None => Raise IndexError
  end.

(** [np.arange(0, stop, step)]: the values [0, step, 2*step, ...] of which
    there are ceil(stop / step), none when that is negative; a zero step has
    no length and raises. *)
Definition arange (stop step : Z) : result (list Z) :=
  if decide (step = 0) then Raise ValueError
  else Return ((fun k => Z.of_nat k * step) <$> seq 0 (Z.to_nat (- ((- stop) / step)))).

(** [cdist] of two columns of numbers: the matrix of |x - y|. *)
Definition cdist (xs ys : list Z) : list (list Z) :=
  (fun x => (fun y => Z.abs (x - y)) <$> ys) <$> xs.

(** [argmin] of one row: the first index that holds the least value. *)
Fixpoint argmin_from (best : nat) (least : Z) (i : nat) (l : list Z) : nat :=
  match l with
  | [] => best
  | x :: l' =>
      if decide (x < least) then argmin_from i x (S i) l'
      else argmin_from best least (S i) l'
  end.

Definition argmin (l : list Z) : result nat :=
  match l with
  | [] => Raise ValueError
  | x :: l' => Return (argmin_from 0%nat x 1%nat l')
  end.

(** Sequencing a list of calls, left to right. *)
Fixpoint collect {A} (l : list (result A)) : result (list A) :=
  match l with
  | [] => Return []
  | r :: l' => x ← r; xs ← collect l'; Return (x :: xs)
  end.

(** [distances.argmin(axis=1)]. *)
Definition argmin_rows (m : list (list Z)) : result (list nat) :=
  collect (argmin <$> m).

(** [in_new_rate[1:] -= in_new_rate[:-1].copy()]. *)
Definition undo_cumsum (l : list Z) : list Z :=
  match l with
  | [] => []
  | x :: t => x :: zip_with Z.sub t l
  end.

(** [a[-1] += v]. *)
Definition add_to_last (l : list Z) (v : Z) : result (list Z) :=
  match reverse l with
  | [] => Raise IndexError
  | x :: r => Return (reverse ((x + v) :: r))
  end.

Definition resample_timings (lengths : list Z) (from_rate to_rate : Z)
    (total_duration : option Z) : result (option (list Z)) :=
  let remainder := (fun x => np_mod x from_rate) <$> lengths in
  if negb (forallb is_zero remainder) then Return None
  else
    let ends := cumsum lengths in
    end_last ← item_last ends;
    new_valid_positions ← arange (end_last + from_rate * 3) to_rate;
    let distances := cdist ends new_valid_positions in
    nearest ← argmin_rows distances;
    in_new_rate ← collect (item new_valid_positions <$> nearest);
    let in_new_rate := undo_cumsum in_new_rate in
    match total_duration with
    | Some total =>
        if decide (total = 0) then Return (Some in_new_rate)
        else
          let diff := total - Zsum in_new_rate in
          assert (bool_decide (Zsum in_new_rate <= total))
                    (Totals (Zsum in_new_rate) total);;
          assert (is_zero (np_mod diff to_rate)) NoInfo;;
          in_new_rate ← add_to_last in_new_rate diff;
          Return (Some in_new_rate)
    | None => Return (Some in_new_rate)
    end.

(** ** match_up *)

Definition merlin_silence_symbols : list str := [lit "pau"; lit "sil"; lit "skip"].

(** [s.startswith(p)]. *)
Fixpoint startswith (s p : str) : bool :=
  match p, s with
  | [], _ => true
  | _ :: _, [] => false
  | c :: p', c' :: s' => bool_decide (c' = c) && startswith s' p'
  end.

(** The variables of [match_up]: the two cursors and the output. *)
Record cursors := Cursors { m : nat; d : nat; timings : list Z }.

(** One evaluation of the loop condition of the first [while]. *)
Inductive step (S : Type) :=
  | Continue (s : S)
  | Exit
  | Fail (e : exn).
Arguments Continue {S} s.
Arguments Exit {S}.
Arguments Fail {S} e.

Section match_up.
Variables (merlin_label : list str) (merlin_timings : list Z).
Variable phoneme_label : list str.

(** The condition of the first loop and, when it holds, its body. *)
Definition align_step (s : cursors) : step cursors :=
  match merlin_label !! m s, phoneme_label !! d s with
  | Some source, Some target =>
      if bool_decide (source ∈ merlin_silence_symbols) then
        if startswith target (lit "<") then
          match merlin_timings !! m s with
          | Some t => Continue (Cursors (S (m s)) (S (d s)) (timings s ++ [t]))
          | None => Fail IndexError
          end
        else Fail (AssertionError (TokenPair target source))
      else
        if startswith target (lit "<") then
          Continue (Cursors (m s) (S (d s)) (timings s ++ [0]))
        else
          match merlin_timings !! m s with
          | Some t => Continue (Cursors (S (m s)) (S (d s)) (timings s ++ [t]))
          | None => Fail IndexError
          end
  | _, _ => Exit
  end.

(** [while m < len(merlin_label) and d < len(phoneme_label): ...] *)
Fixpoint align_loop (fuel : nat) (s : cursors) : result cursors :=
  match align_step s with
  | Exit => Return s
  | Fail e => Raise e
  | Continue s' =>
      match fuel with
      | O => NoFuel
      | S fuel' => align_loop fuel' s'
      end
  end.

(** [while d < len(phoneme_label): timings.append(0); d += 1] *)
Definition pad_step (s : cursors) : step cursors :=
  if decide (d s < length phoneme_label)%nat
  then Continue (Cursors (m s) (S (d s)) (timings s ++ [0]))
  else Exit.

Fixpoint pad_loop (fuel : nat) (s : cursors) : result cursors :=
  match pad_step s with
  | Exit => Return s
  | Fail e => Raise e
  | Continue s' =>
      match fuel with
      | O => NoFuel
      | S fuel' => pad_loop fuel' s'
      end
  end.

(** Every turn of either loop moves [d] towards [len(phoneme_label)], so
    that many turns are enough. *)
Definition match_up : result (list Z) :=
  let fuel := length phoneme_label in
  s ← align_loop fuel (Cursors 0 0 []);
  assert (bool_decide (m s = length merlin_label)) NoInfo;;
  s ← pad_loop fuel s;
  Return (timings s).
End match_up.

(** ** durations_to_attention_matrix *)

(** A [float32] matrix whose entries are only ever 0.0 and 1.0, as rows of
    integers; the sums the code takes of them are exact. *)
Abbreviation matrix := (list (list Z)).

(** [np.zeros((rows, cols))]; a negative dimension raises. *)
Definition zeros (rows : Z) (cols : nat) : result matrix :=
  if decide (rows < 0) then Raise ValueError
  else Return (replicate (Z.to_nat rows) (replicate cols 0)).

(** A bound of a slice over [n] items: counted from the end when negative,
    clipped to the range. *)
Definition slice_bound (n i : Z) : Z :=
  if decide (i < 0) then Z.max (i + n) 0 else Z.min i n.

(** [A[start:stop, i] = 1.0]. *)
Definition assign_column (A : matrix) (start stop : Z) (i : nat) : matrix :=
  let n := Z.of_nat (length A) in
  let lo := slice_bound n start in
  let hi := slice_bound n stop in
  imap (fun r row =>
          if bool_decide (lo <= Z.of_nat r < hi) then <[i := 1]> row else row) A.

(** [enumerate]. *)
Definition enumerate {A} (l : list A) : list (nat * A) := zip (seq 0 (length l)) l.

(** [A.sum(axis=1)] and [A.sum(axis=0)]. *)
Definition sum_rows (A : matrix) : list Z := Zsum <$> A.

Definition sum_columns (cols : nat) (A : matrix) : list Z :=
  (fun c => Zsum ((fun row => default 0 (row !! c)) <$> A)) <$> seq 0 cols.

(** [v.all()]: no entry is zero. *)
Definition np_all (v : list Z) : bool := forallb (fun x => negb (bool_decide (x = 0))) v.

(** The body of the [for] loop, on the pair of [A] and [start]. *)
Definition band_step (st : matrix * Z) (it : nat * Z) : matrix * Z :=
  let stop := st.2 + it.2 in
  (assign_column st.1 st.2 stop it.1, stop).

Definition durations_to_attention_matrix (durations : list Z) : result matrix :=
  let nphones := length durations in
  let nframes := Zsum durations in
  A ← zeros nframes nphones;
  let A := (foldl band_step (A, 0) (enumerate durations)).1 in
  (* a bool compared with 1.0 *)
  assert (np_all (sum_rows A)) NoInfo;;
  assert (bool_decide (np_all (sum_columns nphones A) = np_all durations)) NoInfo;;
  Return A.

(** ** write_transcript and read_transcript *)

(** One utterance of the transcript, the value of [texts[base]]; its
    ['duration'] key may be missing. *)
Record utterance := Utterance {
  phones : list str;
  text : str;
  duration : option (list Z)
}.

Definition nl : ascii := "010"%char.
Definition cr : ascii := "013"%char.

(** [sep.join(l)]. *)
Fixpoint join (sep : str) (l : list str) : str :=
  match l with
  | [] => []
  | [x] => x
  | x :: l' => x ++ sep ++ join sep l'
  end.

(** The order of [str]: by code point, a proper prefix first. *)
Fixpoint str_leb (a b : str) : bool :=
  match a, b with
  | [], _ => true
  | _ :: _, [] => false
  | x :: a', y :: b' =>
      if decide (x = y) then str_leb a' b'
      else bool_decide (N_of_ascii x < N_of_ascii y)%N
  end.

Definition str_le (a b : str) : Prop := str_leb a b.

(** [sorted(l)]. *)
Definition sorted (l : list str) : list str := merge_sort str_le l.

(** [str(v)] of an integer. *)
Definition str_of_int (v : Z) : str := lit (pretty v).

Definition write_line (base : str) (u : utterance) (dur : bool) : option str :=
  let phones := join (lit " ") (phones u) in
  let line := base ++ lit "||" ++ text u ++ lit "|" ++ phones in
  if dur then
    match duration u with
    | None => None (* continue *)
    | Some ds =>
        let dur := join (lit " ") (str_of_int <$> ds) in
        Some (line ++ lit "||" ++ dur)
    end
  else Some line.

(** The text that [write_transcript] leaves in [transcript_file]. *)
Definition write_transcript (texts : gmap str utterance) (dur : bool) : str :=
  foldl (fun f base =>
           match texts !! base with
           | Some u =>
               match write_line base u dur with
               | Some line => f ++ line ++ [nl]
               | None => f
               end
           | None => f
           end) [] (sorted (map_to_list texts).*1).

(** The code points below 256 at which [str.splitlines] ends a line. *)
Definition is_linebreak (c : ascii) : bool :=
  bool_decide (N_of_ascii c ∈ [10; 11; 12; 13; 28; 29; 30; 133]%N).

(** The code points below 256 that are white space for [str.strip()] and
    for the pattern [\s]. *)
Definition is_space (c : ascii) : bool :=
  bool_decide (N_of_ascii c ∈ [9; 10; 11; 12; 13; 28; 29; 30; 31; 32; 133; 160]%N).

(** [f.readlines()] of a [codecs] reader: [splitlines] that keeps the ends;
    a carriage return and the line feed after it end one line. *)
Fixpoint splitlines (cur : str) (s : str) : list str :=
  match s with
  | [] => match cur with [] => [] | _ => [cur] end
  | c :: s' =>
      if is_linebreak c then
        match s' with
        | c' :: s'' =>
            if bool_decide (c = cr) && bool_decide (c' = nl)
            then (cur ++ [c; c']) :: splitlines [] s''
            else (cur ++ [c]) :: splitlines [] s'
        | [] => [cur ++ [c]]
        end
      else splitlines (cur ++ [c]) s'
  end.

Definition readlines (s : str) : list str := splitlines [] s.

(** [s.strip(chars)] and [s.strip()], by the test of what is stripped. *)
Fixpoint lstrip (p : ascii -> bool) (s : str) : str :=
  match s with
  | [] => []
  | c :: s' => if p c then lstrip p s' else s
  end.

Definition rstrip (p : ascii -> bool) (s : str) : str :=
  reverse (lstrip p (reverse s)).

Definition strip (p : ascii -> bool) (s : str) : str := rstrip p (lstrip p s).

Definition one_of (chars : str) (c : ascii) : bool := bool_decide (c ∈ chars).

(** [s.split(sep)] for a separator of one character. *)
Fixpoint split_from (sep : ascii) (cur : str) (s : str) : list str :=
  match s with
  | [] => [cur]
  | c :: s' =>
      if bool_decide (c = sep) then cur :: split_from sep [] s'
      else split_from sep (cur ++ [c]) s'
  end.

Definition split (sep : ascii) (s : str) : list str := split_from sep [] s.

(** [re.split('\s+', s)]: cut at every longest run of white space;
    [in_run] tells that the character before was white space. *)
Fixpoint re_split_from (in_run : bool) (cur : str) (s : str) : list str :=
  match s with
  | [] => [cur]
  | c :: s' =>
      if is_space c then
        if in_run then re_split_from true [] s'
        else cur :: re_split_from true [] s'
      else re_split_from false (cur ++ [c]) s'
  end.

Definition re_split_spaces (s : str) : list str := re_split_from false [] s.

Definition python_filter {A} (f : A -> bool) (l : list A) : list A :=
  List.filter f l.

Definition is_nonempty (t : str) : bool :=
  match t with
  | [] => false
  | _ => true
  end.

(** [for line in texts: assert len(line) == len(texts[0]), line]. *)
Fixpoint check_field_counts (first : nat) (texts : list (list str)) : result unit :=
  match texts with
  | [] => Return tt
  | line :: rest =>
      assert (bool_decide (length line = first)) (Fields line);;
      check_field_counts first rest
  end.

(** The second [for] loop, on the dictionary [transcript]. *)
Fixpoint read_fields (transcript : gmap str utterance) (texts : list (list str))
    : result (gmap str utterance) :=
  match texts with
  | [] => Return transcript
  | fields :: rest =>
      assert (bool_decide (4 <= length fields)%nat) NoInfo;;
      match fields with
      | base :: plaintext :: normtext :: phones :: _ =>
          let phones := re_split_spaces phones in
          read_fields (<[base := Utterance phones normtext None]> transcript) rest
      | _ => Raise ValueError
      end
  end.

(** [read_transcript], from the text of [transcript_file]. *)
Definition read_transcript (file : str) : result (gmap str utterance) :=
  let texts := readlines file in
  let texts := strip (one_of [nl; cr; " "; "|"]%char) <$> texts in
  let texts := python_filter is_nonempty texts in
  let texts := (fun line => split "|"%char (strip is_space line)) <$> texts in
  check_field_counts (length (default [] (head texts))) texts;;
  read_fields ∅ texts.

(** ** merlin_state_label_to_monophones and process_wav: the names *)

(** [label.split('-')[1].split('+')[0]]: the monophone that
    [merlin_state_label_to_monophones] takes from a label. *)
Definition monophone_of (label : str) : result str :=
  part ← item (split "-"%char label) 1;
  item (split "+"%char part) 0.

(** [path.split("/")[-1]]: the id that [process_wav] gives a file. *)
Definition wav_id (path : str) : result str :=
  item_last (split "/"%char path).

(** ** Vocabulary of the statements *)








(** The states of the cursors that the first loop of [match_up] goes
    through, from [m = d = 0]. *)
Inductive reaches (merlin_label : list str) (merlin_timings : list Z)
    (phoneme_label : list str) : cursors -> Prop :=
  | reaches_start :
      reaches merlin_label merlin_timings phoneme_label (Cursors 0 0 [])
  | reaches_step s s' :
      reaches merlin_label merlin_timings phoneme_label s ->
      align_step merlin_label merlin_timings phoneme_label s = Continue s' ->
      reaches merlin_label merlin_timings phoneme_label s'.

(** The silence symbols as the specification names them. *)
Definition spec_silence_symbols : list str :=
  [lit "pause"; lit "silence"; lit "skip"].

(** The claim about silence for a given list of silence symbols: a source
    token of the list met with a target that is not a boundary marker makes
    the call raise with the two tokens; met with a boundary marker, the
    source duration is emitted and both cursors advance. *)
Definition silence_is_checked (symbols : list str) : Prop :=
  forall merlin_label merlin_timings phoneme_label s source target,
    reaches merlin_label merlin_timings phoneme_label s ->
    merlin_label !! m s = Some source ->
    phoneme_label !! d s = Some target ->
    source ∈ symbols ->
    (startswith target (lit "<") = false ->
       match_up merlin_label merlin_timings phoneme_label
         = Raise (AssertionError (TokenPair target source))) /\
    (startswith target (lit "<") = true ->
       forall t, merlin_timings !! m s = Some t ->
         align_step merlin_label merlin_timings phoneme_label s
           = Continue (Cursors (S (m s)) (S (d s)) (timings s ++ [t]))).

(** The entry of a matrix at a row and a column, a column of a matrix, and
    the number of entries of a list that are not zero. *)
Definition entry {A} (M : list (list A)) (r c : nat) : option A :=
  row ← M !! r; row !! c.

Definition column (A : matrix) (c : nat) : list Z :=
  (fun row => default 0 (row !! c)) <$> A.

Definition count_nonzero (l : list Z) : nat :=
  length (List.filter (fun x => negb (bool_decide (x = 0))) l).

(** The frame at which the token [i] starts: the sum of the durations
    before it. *)
Definition start_of (durations : list Z) (i : nat) : Z := Zsum (take i durations).

(** What the loop of [durations_to_attention_matrix] makes of one row, the
    row of frame [r]: token after token from column [i] on, a 1 in the
    column of the token when the frame is in its range. *)
Fixpoint paint (r : Z) (i : nat) (start : Z) (l : list Z) (row : list Z) : list Z :=
  match l with
  | [] => row
  | dur :: l' =>
      paint r (S i) (start + dur) l'
        (if bool_decide (start <= r < start + dur) then <[i := 1]> row else row)
  end.

(** The rows of zeros, one for every frame, after the loop. *)
Definition painted_matrix (durations : list Z) : matrix :=
  imap (fun r row => paint (Z.of_nat r) 0 0 durations row)
       (replicate (Z.to_nat (Zsum durations)) (replicate (length durations) 0)).

(** The matrix for the durations 3, 0, 1, 2 as the specification describes
    it. *)
Definition example_as_stated (A : matrix) : Prop :=
  length A = 6%nat /\ Forall (fun row => length row = 4%nat) A /\
  (forall r, (r < 3)%nat -> entry A r 0 = Some 1) /\
  A !! 3%nat = Some [0; 0; 0; 0] /\
  entry A 4 2 = Some 1 /\
  entry A 5 3 = Some 1 /\
  Forall (fun row => Zsum row = 1) A.

(** A character that may stand in a field of a line: not the separator of
    the fields and not the end of a line.  A solid character is moreover
    not white space. *)
Definition plain (c : ascii) : Prop := c <> "|"%char /\ is_linebreak c = false.

Definition solid (c : ascii) : Prop := c <> "|"%char /\ is_space c = false.

(** A token: solid characters, at least one. *)
Definition token (t : str) : Prop := t <> [] /\ Forall solid t.

(** An id that the file gives back: plain characters, the first of them not
    white space. *)
Definition clean_id (base : str) : Prop :=
  Forall plain base /\ exists c rest, base = c :: rest /\ is_space c = false.

(** An utterance that the file gives back: a text of plain characters, at
    least one phone, phones that are tokens, and durations, at least one. *)
Definition clean_utterance (u : utterance) : Prop :=
  Forall plain (text u) /\ phones u <> [] /\ Forall token (phones u) /\
  exists ds, duration u = Some ds /\ ds <> [].

(** The utterance as [read_transcript] builds it. *)
Definition without_duration (u : utterance) : utterance :=
  Utterance (phones u) (text u) None.

(** What [write_transcript] with durations adds to the file for one id. *)
Definition line_of (texts : gmap str utterance) (base : str) : str :=
  match texts !! base with
  | Some u =>
      match write_line base u true with
      | Some line => line ++ [nl]
      | None => []
      end
  | None => []
  end.

(** The fields of the line of one utterance with its durations [ds], and
    the fields that [read_transcript] gets for the id [base]. *)
Definition fields_of (base : str) (u : utterance) (ds : list Z) : list str :=
  [base; []; text u; join (lit " ") (phones u); [];
   join (lit " ") (str_of_int <$> ds)].

Definition parsed (texts : gmap str utterance) (base : str) : list str :=
  match texts !! base with
  | Some u =>
      match duration u with
      | Some ds => fields_of base u ds
      | None => []
      end
  | None => []
  end.

(** The line of an id without the end of the line. *)
Definition body_of (texts : gmap str utterance) (base : str) : str :=
  match texts !! base with
  | Some u => default [] (write_line base u true)
  | None => []
  end.

(** The round trip as the specification words it, on transcripts that the
    file can hold. *)
Definition roundtrip_as_stated : Prop :=
  forall texts : gmap str utterance,
    map_Forall (fun base u => clean_id base /\ clean_utterance u) texts ->
    exists back,
      read_transcript (write_transcript texts true) = Return back /\
      forall base u, texts !! base = Some u ->
        exists u', back !! base = Some u' /\
          phones u' = phones u /\ text u' = text u /\ duration u' = duration u.

(** The value of [texts] in [read_transcript] before its two loops: the
    fields of the lines that are not blank. *)
Definition transcript_fields (file : str) : list (list str) :=
  (fun line => split "|"%char (strip is_space line))
    <$> python_filter is_nonempty
          (strip (one_of [nl; cr; " "; "|"]%char) <$> readlines file).

(** What the second loop of [read_transcript] makes of the fields of one
    line: the id and the utterance it stores under it. *)
Definition utterance_of_fields (fields : list str) : option (str * utterance) :=
  match fields with
  | base :: _ :: normtext :: phones :: _ =>
      Some (base, Utterance (re_split_spaces phones) normtext None)
  | _ => None
  end.

(** The fields of the line that [write_transcript] writes for an utterance,
    if it writes one. *)
Definition record_fields (dur : bool) (base : str) (u : utterance)
    : option (list str) :=
  let common := [base; []; text u; join (lit " ") (phones u)] in
  if dur then
    match duration u with
    | Some ds => Some (common ++ [[]; join (lit " ") (str_of_int <$> ds)])
    | None => None
    end
  else Some common.

(** A record that a file written with or without durations gives back. *)
Definition clean_record (dur : bool) (base : str) (u : utterance) : Prop :=
  clean_id base /\ Forall plain (text u) /\
  phones u <> [] /\ Forall token (phones u) /\
  (dur = true -> forall ds, duration u = Some ds -> ds <> []).

(** Fields that make a line which comes back as it is: plain characters in
    every field, a first character of the line that is not white space and
    a last one that is solid. *)
Definition good_fields (fields : list str) : Prop :=
  Forall (Forall plain) fields /\
  exists first rest front final,
    join (lit "|") fields = first :: rest /\
    first :: rest = front ++ [final] /\
    is_space first = false /\ first <> "|"%char /\ solid final.

(** The fields of the line written for the id [base], if one is. *)
Definition written_record (texts : gmap str utterance) (dur : bool) (base : str)
    : option (list str) :=
  u ← texts !! base; record_fields dur base u.

(** * Properties *)

(** ** Sequencing *)

Lemma collect_fmap_Return {A B} (f : A -> result B) (g : A -> B) (l : list A) :
  Forall (fun x => f x = Return (g x)) l ->
  collect (f <$> l) = Return (g <$> l).
Proof.
  induction 1 as [|x l Hx _ IH]; [done|].
  cbn. rewrite Hx. cbn. rewrite IH. done.
Qed.

Lemma Zsum_nil : Zsum [] = 0.
Proof. done. Qed.

Lemma Zsum_cons (x : Z) (l : list Z) : Zsum (x :: l) = x + Zsum l.
Proof. done. Qed.

Lemma Zsum_app (l k : list Z) : Zsum (l ++ k) = Zsum l + Zsum k.
Proof.
  induction l as [|x l IH]; [done|].
  rewrite <- app_comm_cons, !Zsum_cons, IH. lia.
Qed.

Lemma Zsum_nonneg (l : list Z) : Forall (fun x => 0 <= x) l -> 0 <= Zsum l.
Proof. induction 1; rewrite ?Zsum_cons; [done|lia]. Qed.

(** ** resample_timings: the parts *)


Lemma forallb_remainder_false (lengths : list Z) (from_rate : Z) :
  Exists (fun x => ~ (from_rate | x)) lengths ->
  forallb is_zero ((fun x => np_mod x from_rate) <$> lengths) = false.
Proof.
  induction 1 as [x l Hx|x l _ IH]; cbn.
  - apply andb_false_intro1. unfold np_mod.
    destruct (decide (from_rate = 0)); [done|].
    destruct (x mod from_rate) eqn:E; [|done..].
    destruct Hx. by apply Z.mod_divide.
  - rewrite IH. apply andb_false_r.
Qed.




















(** ** resample_timings: the claims *)

(** C9. When some duration is not a multiple of [from_rate], the call
    returns [None], the value on which the caller skips the utterance; it
    does not raise, whatever the other arguments. *)
Theorem resample_timings_not_divisible
    (lengths : list Z) (from_rate to_rate : Z) (total_duration : option Z) :
  Exists (fun x => ~ (from_rate | x)) lengths ->
  resample_timings lengths from_rate to_rate total_duration = Return None.
Proof.
  intros Hex. unfold resample_timings.
  by rewrite forallb_remainder_false.
Qed.

Lemma resample_timings_not_divisible_witness :
  Exists (fun x => ~ (5 | x)) [7] /\
  resample_timings [7] 5 50 None = Return None.
Proof.
  assert (H : Exists (fun x => ~ (5 | x)) [7]).
  { constructor. intros [k Hk]. lia. }
  split; [exact H|]. exact (resample_timings_not_divisible [7] 5 50 None H).
Defined.







(** ** match_up: the loops *)

Section match_up_facts.
Variables (merlin_label : list str) (merlin_timings : list Z).
Variable phoneme_label : list str.

Abbreviation step_of := (align_step merlin_label merlin_timings phoneme_label).
Abbreviation loop := (align_loop merlin_label merlin_timings phoneme_label).
Abbreviation reach := (reaches merlin_label merlin_timings phoneme_label).

(** A turn of the first loop appends one duration and moves [d] by one. *)
Lemma align_step_Continue s s' :
  step_of s = Continue s' ->
  (d s < length phoneme_label)%nat /\ d s' = S (d s) /\
  (m s <= m s' <= S (m s))%nat /\
  exists t, timings s' = timings s ++ [t].
Proof.
  unfold align_step. intros H.
  destruct (merlin_label !! m s) as [source|]; [|done].
  destruct (phoneme_label !! d s) as [target|] eqn:Hd; [|done].
  apply lookup_lt_Some in Hd.
  repeat case_match; simplify_eq; cbn; eauto 10 with lia.
Qed.

Lemma align_step_Exit s :
  step_of s = Exit ->
  (length merlin_label <= m s)%nat \/ (length phoneme_label <= d s)%nat.
Proof.
  unfold align_step. intros H.
  destruct (merlin_label !! m s) eqn:Hm; [|left; by apply lookup_ge_None].
  destruct (phoneme_label !! d s) eqn:Hd; [|right; by apply lookup_ge_None].
  repeat case_match; simplify_eq.
Qed.

Lemma reaches_invariant s :
  reach s ->
  length (timings s) = d s /\ (d s <= length phoneme_label)%nat /\
  (m s <= length merlin_label)%nat.
Proof.
  induction 1 as [|s s' _ (Hlen & Hd & Hm) Hstep]; [cbn; lia|].
  pose proof Hstep as Hstep'.
  apply align_step_Continue in Hstep as (Hlt & Hd' & Hm' & t & Ht).
  rewrite Ht, length_app, Hd'. cbn. split; [lia|]. split; [lia|].
  unfold align_step in Hstep'.
  destruct (merlin_label !! m s) eqn:E; [|done].
  apply lookup_lt_Some in E. lia.
Qed.

(** The first loop from a state on its way does what is left of the loop
    from the start. *)
Lemma align_loop_reaches s :
  reach s ->
  loop (length phoneme_label) (Cursors 0 0 [])
    = loop (length phoneme_label - d s) s.
Proof.
  induction 1 as [|s s' Hs IH Hstep]; [by rewrite Nat.sub_0_r|].
  rewrite IH.
  pose proof (align_step_Continue _ _ Hstep) as (Hlt & Hd' & _).
  replace (length phoneme_label - d s)%nat
    with (S (length phoneme_label - d s'))%nat by lia.
  cbn [align_loop]. by rewrite Hstep.
Qed.

(** With a turn of fuel for every target token left, the first loop ends,
    in a state it reaches where its condition is false. *)
Lemma align_loop_ends fuel s :
  reach s -> (length phoneme_label - d s <= fuel)%nat ->
  (exists e, loop fuel s = Raise e) \/
  (exists s', loop fuel s = Return s' /\ reach s' /\ step_of s' = Exit).
Proof.
  revert s. induction fuel as [|fuel IH]; intros s Hs Hfuel.
  - cbn. destruct (step_of s) as [s'| |e] eqn:Hstep; eauto.
    apply align_step_Continue in Hstep. lia.
  - cbn. destruct (step_of s) as [s'| |e] eqn:Hstep; eauto.
    apply IH; [by econstructor|].
    apply align_step_Continue in Hstep. lia.
Qed.

Lemma pad_loop_ends fuel s :
  (d s <= length phoneme_label)%nat ->
  (length phoneme_label - d s <= fuel)%nat ->
  pad_loop phoneme_label fuel s
    = Return (Cursors (m s) (length phoneme_label)
                (timings s ++ replicate (length phoneme_label - d s) 0)).
Proof.
  revert s. induction fuel as [|fuel IH]; intros [m0 d0 ts] Hd Hfuel; cbn in *.
  - unfold pad_step. cbn. rewrite decide_False by lia.
    replace (length phoneme_label - d0)%nat with 0%nat by lia.
    cbn. rewrite app_nil_r. do 2 f_equal. lia.
  - unfold pad_step. cbn. destruct (decide (d0 < length phoneme_label)%nat).
    + rewrite IH by (cbn; lia). cbn.
      replace (length phoneme_label - d0)%nat
        with (S (length phoneme_label - S d0)) by lia.
      cbn. by rewrite <- app_assoc.
    + replace (length phoneme_label - d0)%nat with 0%nat by lia.
      cbn. rewrite app_nil_r. do 2 f_equal. lia.
Qed.

(** The model of the loops never runs out of fuel: the call returns the
    timings or raises. *)
Lemma match_up_total :
  match_up merlin_label merlin_timings phoneme_label <> NoFuel.
Proof.
  unfold match_up.
  destruct (align_loop_ends (length phoneme_label) (Cursors 0 0 []))
    as [[e ->]|(s & -> & Hs & _)]; [constructor|cbn; lia|done|].
  cbn. destruct (bool_decide _); [|done]. cbn.
  apply reaches_invariant in Hs as (_ & Hd & _).
  by rewrite pad_loop_ends by (done || lia).
Qed.

(** A call that returns has left its first loop with the source used up,
    and returns what that loop produced followed by zeros. *)
Lemma match_up_Return ts :
  match_up merlin_label merlin_timings phoneme_label = Return ts ->
  exists s,
    loop (length phoneme_label) (Cursors 0 0 []) = Return s /\
    reach s /\ m s = length merlin_label /\
    ts = timings s ++ replicate (length phoneme_label - d s) 0.
Proof.
  unfold match_up.
  destruct (align_loop_ends (length phoneme_label) (Cursors 0 0 []))
    as [[e ->]|(s & -> & Hs & _)]; [constructor|cbn; lia|done|].
  cbn. destruct (bool_decide_reflect (m s = length merlin_label)); [|done].
  cbn. pose proof (reaches_invariant _ Hs) as (_ & Hd & _).
  rewrite pad_loop_ends by (done || lia). cbn.
  intros [= <-]. eauto.
Qed.

Lemma match_up_Fail s e :
  reach s -> step_of s = Fail e ->
  match_up merlin_label merlin_timings phoneme_label = Raise e.
Proof.
  intros Hs Hstep. unfold match_up. rewrite (align_loop_reaches s Hs).
  destruct (length phoneme_label - d s)%nat; cbn; by rewrite Hstep.
Qed.
End match_up_facts.

(** ** match_up: the walk of the two cursors *)

Section match_up_walk.
Variables (merlin_label : list str) (merlin_timings : list Z).
Variable phoneme_label : list str.

Abbreviation step_at := (align_step merlin_label merlin_timings phoneme_label).
Abbreviation walk := (align_loop merlin_label merlin_timings phoneme_label).
Abbreviation reached := (reaches merlin_label merlin_timings phoneme_label).

(** The first loop only ever appends to the timings. *)
Lemma align_loop_timings fuel s s' :
  walk fuel s = Return s' -> exists more, timings s' = timings s ++ more.
Proof.
  revert s. induction fuel as [|fuel IH]; intros s; cbn.
  - destruct (step_at s) as [x| |e]; [done| |done].
    intros [= <-]. exists []. by rewrite app_nil_r.
  - destruct (step_at s) as [x| |e] eqn:Hstep; [| |done].
    + intros (more & ->)%IH.
      apply align_step_Continue in Hstep as (_ & _ & _ & t & ->).
      exists (t :: more). by rewrite <- app_assoc.
    + intros [= <-]. exists []. by rewrite app_nil_r.
Qed.

(** What the first loop has appended when it stands at a state is a prefix
    of what the call returns. *)
Lemma reaches_timings_kept s ts :
  reached s ->
  match_up merlin_label merlin_timings phoneme_label = Return ts ->
  exists more, ts = timings s ++ more.
Proof.
  intros Hs (s' & Hloop & _ & _ & ->)%match_up_Return.
  rewrite (align_loop_reaches _ _ _ s Hs) in Hloop.
  apply align_loop_timings in Hloop as (more & ->).
  eexists. by rewrite <- app_assoc.
Qed.

(** The first loop raises what one of its turns raises. *)
Lemma align_loop_Raise fuel s e :
  reached s -> walk fuel s = Raise e ->
  exists s', reached s' /\ step_at s' = Fail e.
Proof.
  revert s. induction fuel as [|fuel IH]; intros s Hs; cbn.
  - destruct (step_at s) as [x| |e'] eqn:Hstep; [done|done|].
    intros [= <-]. eauto.
  - destruct (step_at s) as [x| |e'] eqn:Hstep; [|done|].
    + apply IH. by econstructor.
    + intros [= <-]. eauto.
Qed.

(** A call raises what a turn of the first loop raises, or fails the
    assertion that follows the loop. *)
Lemma match_up_Raise e :
  match_up merlin_label merlin_timings phoneme_label = Raise e ->
  (exists s, reached s /\ step_at s = Fail e) \/ e = AssertionError NoInfo.
Proof.
  unfold match_up.
  destruct (align_loop_ends merlin_label merlin_timings phoneme_label
              (length phoneme_label) (Cursors 0 0 []))
    as [[e' He]|(s & Hs & Hreach & _)]; [constructor|cbn; lia| |].
  - rewrite He. cbn. intros [= <-]. left.
    eapply align_loop_Raise; [constructor|done].
  - rewrite Hs. cbn.
    destruct (bool_decide _); cbn; [|intros [= <-]; by right].
    apply reaches_invariant in Hreach as (_ & Hd & _).
    by rewrite pad_loop_ends by (done || lia).
Qed.

(** A turn raises with a pair of tokens only at a silence symbol. *)
Lemma align_step_Fail_pair s target source :
  step_at s = Fail (AssertionError (TokenPair target source)) ->
  source ∈ merlin_silence_symbols.
Proof.
  unfold align_step.
  destruct (merlin_label !! m s) as [a|]; [|done].
  destruct (phoneme_label !! d s) as [b|]; [|done].
  destruct (bool_decide_reflect (a ∈ merlin_silence_symbols)) as [Ha|Ha].
  - repeat case_match; try done. by intros [= _ <-].
  - repeat case_match; done.
Qed.

(** The walk is one path: the place of the target cursor tells the state. *)
Lemma reaches_functional s1 s2 :
  reached s1 -> reached s2 -> d s1 = d s2 -> s1 = s2.
Proof.
  intros H1. revert s2.
  induction H1 as [|x1 s1 Hx1 IH Hstep1]; intros s2 H2 Hd.
  - destruct H2 as [|x2 s2 Hx2 Hstep2]; [done|].
    apply align_step_Continue in Hstep2 as (_ & Hd2 & _). cbn in Hd. lia.
  - destruct H2 as [|x2 s2 Hx2 Hstep2].
    + apply align_step_Continue in Hstep1 as (_ & Hd1 & _). cbn in Hd. lia.
    + pose proof (align_step_Continue _ _ _ _ _ Hstep1) as (_ & Hd1 & _).
      pose proof (align_step_Continue _ _ _ _ _ Hstep2) as (_ & Hd2 & _).
      assert (x1 = x2) as -> by (apply IH; [done|lia]).
      congruence.
Qed.
End match_up_walk.

(** The second loop looks at the number of the target tokens only. *)
Lemma pad_loop_length (pl pl' : list str) fuel s :
  length pl' = length pl -> pad_loop pl' fuel s = pad_loop pl fuel s.
Proof.
  intros Hlen. revert s. induction fuel as [|fuel IH]; intros s; cbn;
    unfold pad_step; rewrite Hlen; [done|].
  destruct (decide _); [apply IH|done].
Qed.

(** Other phones at a place where two phones were paired: the call goes the
    same way and ends the same. *)
Section other_phones.
Variables (merlin_label : list str) (merlin_timings : list Z).
Variable phoneme_label : list str.
Variables (s : cursors) (source target source' target' : str).
Hypothesis s_reached : reaches merlin_label merlin_timings phoneme_label s.
Hypothesis source_here : merlin_label !! m s = Some source.
Hypothesis target_here : phoneme_label !! d s = Some target.
Hypothesis source_phone : source ∉ merlin_silence_symbols.
Hypothesis target_phone : startswith target (lit "<") = false.
Hypothesis source_phone' : source' ∉ merlin_silence_symbols.
Hypothesis target_phone' : startswith target' (lit "<") = false.

Lemma other_phones_step x :
  reaches merlin_label merlin_timings phoneme_label x ->
  align_step (<[m s := source']> merlin_label) merlin_timings
    (<[d s := target']> phoneme_label) x
  = align_step merlin_label merlin_timings phoneme_label x.
Proof.
  intros Hx. unfold align_step.
  pose proof (lookup_lt_Some _ _ _ source_here) as Hm.
  pose proof (lookup_lt_Some _ _ _ target_here) as Hd.
  destruct (decide (d x = d s)) as [Hdx|Hdx].
  - assert (x = s) as ->
      by by apply (reaches_functional merlin_label merlin_timings phoneme_label).
    rewrite !list_lookup_insert_eq by done.
    rewrite source_here, target_here.
    rewrite !bool_decide_false by done.
    by rewrite target_phone, target_phone'.
  - rewrite (list_lookup_insert_ne phoneme_label) by done.
    destruct (decide (m x = m s)) as [Hmx|Hmx].
    + rewrite Hmx, list_lookup_insert_eq, source_here by done.
      by rewrite !bool_decide_false by done.
    + by rewrite list_lookup_insert_ne by done.
Qed.

Lemma other_phones_loop fuel x :
  reaches merlin_label merlin_timings phoneme_label x ->
  align_loop (<[m s := source']> merlin_label) merlin_timings
    (<[d s := target']> phoneme_label) fuel x
  = align_loop merlin_label merlin_timings phoneme_label fuel x.
Proof.
  revert x. induction fuel as [|fuel IH]; intros x Hx; cbn;
    rewrite other_phones_step by done; [done|].
  destruct (align_step _ _ _ x) as [x'| |e] eqn:Hstep; [|done..].
  apply IH. by econstructor.
Qed.

Lemma other_phones_match_up :
  match_up (<[m s := source']> merlin_label) merlin_timings
    (<[d s := target']> phoneme_label)
  = match_up merlin_label merlin_timings phoneme_label.
Proof.
  unfold match_up. rewrite !length_insert.
  rewrite other_phones_loop by constructor.
  destruct (align_loop _ _ _ _ _) as [x| |]; [|done..]. cbn.
  destruct (bool_decide _); [|done]. cbn.
  by rewrite (pad_loop_length phoneme_label) by apply length_insert.
Qed.
End other_phones.

(** ** match_up: the claims *)

(** C3, as stated, fails: the silence symbols of the code are "pau", "sil"
    and "skip".  The source token "pause" met with the target "k" is paired
    with it like any phone, and the call returns its duration. *)
Lemma match_up_pause_not_silence : ~ silence_is_checked spec_silence_symbols.
Proof.
  intros H.
  destruct (H [lit "pause"] [10] [lit "k"] (Cursors 0 0 []) (lit "pause") (lit "k"))
    as [Hraise _].
  - constructor.
  - done.
  - done.
  - by left.
  - specialize (Hraise eq_refl). vm_compute in Hraise. discriminate.
Qed.

(** C3, amended.  Whenever the first loop stands at a source token that is
    one of "pau", "sil" and "skip": if the target token there does not
    start with "<", the call raises an [AssertionError] that carries the
    target and the source token; if it does, the loop appends the duration
    of the source token and moves both cursors by one. *)
Theorem match_up_silence
    (merlin_label : list str) (merlin_timings : list Z) (phoneme_label : list str)
    (s : cursors) (source target : str) :
  reaches merlin_label merlin_timings phoneme_label s ->
  merlin_label !! m s = Some source ->
  phoneme_label !! d s = Some target ->
  source ∈ merlin_silence_symbols ->
  (startswith target (lit "<") = false ->
     match_up merlin_label merlin_timings phoneme_label
       = Raise (AssertionError (TokenPair target source))) /\
  (startswith target (lit "<") = true ->
     forall t, merlin_timings !! m s = Some t ->
       align_step merlin_label merlin_timings phoneme_label s
         = Continue (Cursors (S (m s)) (S (d s)) (timings s ++ [t]))).
Proof.
  intros Hs Hm Hd Hsil. split.
  - intros Hstart. apply (match_up_Fail _ _ _ s); [done|].
    unfold align_step. rewrite Hm, Hd, bool_decide_true by done.
    by rewrite Hstart.
  - intros Hstart t Ht. unfold align_step.
    rewrite Hm, Hd, bool_decide_true by done. by rewrite Hstart, Ht.
Qed.

Lemma match_up_silence_witness :
  (startswith (lit "k") (lit "<") = false ->
     match_up [lit "sil"; lit "k"] [10; 20] [lit "k"; lit "a"]
       = Raise (AssertionError (TokenPair (lit "k") (lit "sil")))) /\
  (startswith (lit "k") (lit "<") = true ->
     forall t, [10; 20] !! 0%nat = Some t ->
       align_step [lit "sil"; lit "k"] [10; 20] [lit "k"; lit "a"] (Cursors 0 0 [])
         = Continue (Cursors 1 1 ([] ++ [t]))).
Proof.
  apply (match_up_silence [lit "sil"; lit "k"] [10; 20] [lit "k"; lit "a"]
           (Cursors 0 0 []) (lit "sil") (lit "k")).
  - constructor.
  - reflexivity.
  - reflexivity.
  - right. left.
Defined.

(** C4. A call that returns gives one duration for every target token, and
    the target tokens from the place of the target cursor at the end of the
    first loop on -- those left when the source is used up -- get 0. *)
Theorem match_up_length
    (merlin_label : list str) (merlin_timings : list Z) (phoneme_label : list str)
    (ts : list Z) :
  match_up merlin_label merlin_timings phoneme_label = Return ts ->
  length ts = length phoneme_label /\
  exists s,
    align_loop merlin_label merlin_timings phoneme_label
      (length phoneme_label) (Cursors 0 0 []) = Return s /\
    m s = length merlin_label /\
    forall j, (d s <= j < length phoneme_label)%nat -> ts !! j = Some 0.
Proof.
  intros (s & Hloop & Hs & Hm & ->)%match_up_Return.
  apply reaches_invariant in Hs as (Hlen & Hd & _).
  split.
  - rewrite length_app, length_replicate. lia.
  - exists s. split; [done|]. split; [done|].
    intros j Hj. rewrite lookup_app_r by lia.
    apply lookup_replicate_2. lia.
Qed.

Lemma match_up_length_witness :
  length [20; 0; 0] = length [lit "a"; lit "."; lit "<e>"] /\
  exists s,
    align_loop [lit "k"] [20] [lit "a"; lit "."; lit "<e>"] 3 (Cursors 0 0 [])
      = Return s /\
    m s = length [lit "k"] /\
    forall j, (d s <= j < 3)%nat -> [20; 0; 0] !! j = Some 0.
Proof.
  apply (match_up_length [lit "k"] [20] [lit "a"; lit "."; lit "<e>"] [20; 0; 0]).
  reflexivity.
Defined.

(** C10. Wherever the walk of a call stands at a source token that is not a
    silence symbol and a target token that does not start with "<", the
    loop appends the duration of the source token and moves both cursors
    by one, and the walk goes on from there; the call does not raise with
    the two tokens, and when it returns, the duration it returns for the
    target token is that of the source token.  Nothing compares the two
    tokens: with any other two such tokens at the two places the call ends
    the same, so a source "k" is paired with a target "a" as it is with a
    target "k". *)
Theorem match_up_phones_not_compared
    (merlin_label : list str) (merlin_timings : list Z) (phoneme_label : list str)
    (s : cursors) (source target : str) (t : Z) :
  reaches merlin_label merlin_timings phoneme_label s ->
  merlin_label !! m s = Some source ->
  merlin_timings !! m s = Some t ->
  phoneme_label !! d s = Some target ->
  source ∉ merlin_silence_symbols ->
  startswith target (lit "<") = false ->
  align_step merlin_label merlin_timings phoneme_label s
    = Continue (Cursors (S (m s)) (S (d s)) (timings s ++ [t])) /\
  reaches merlin_label merlin_timings phoneme_label
    (Cursors (S (m s)) (S (d s)) (timings s ++ [t])) /\
  match_up merlin_label merlin_timings phoneme_label
    <> Raise (AssertionError (TokenPair target source)) /\
  (forall ts, match_up merlin_label merlin_timings phoneme_label = Return ts ->
     ts !! d s = Some t) /\
  (forall source' target',
     source' ∉ merlin_silence_symbols -> startswith target' (lit "<") = false ->
     match_up (<[m s := source']> merlin_label) merlin_timings
       (<[d s := target']> phoneme_label)
     = match_up merlin_label merlin_timings phoneme_label).
Proof.
  intros Hs Hm Ht Hd Hsil Hstart.
  assert (Hstep : align_step merlin_label merlin_timings phoneme_label s
            = Continue (Cursors (S (m s)) (S (d s)) (timings s ++ [t]))).
  { unfold align_step. rewrite Hm, Hd, bool_decide_false by done.
    by rewrite Hstart, Ht. }
  assert (Hnext : reaches merlin_label merlin_timings phoneme_label
            (Cursors (S (m s)) (S (d s)) (timings s ++ [t]))).
  { by econstructor. }
  split; [done|]. split; [done|]. split; [|split].
  - intros [(x & _ & Hx)|]%match_up_Raise; [|done].
    by apply align_step_Fail_pair in Hx.
  - intros ts Hts.
    destruct (reaches_timings_kept _ _ _ _ ts Hnext Hts) as (more & ->).
    apply reaches_invariant in Hs as (Hlen & _).
    cbn. rewrite <- app_assoc. rewrite lookup_app_r by lia.
    by rewrite Hlen, Nat.sub_diag.
  - intros source' target' Hsil' Hstart'.
    by eapply other_phones_match_up.
Qed.

Lemma match_up_phones_not_compared_witness :
  align_step [lit "k"] [20] [lit "<s>"; lit "a"] (Cursors 0 1 [0])
    = Continue (Cursors 1 2 ([0] ++ [20])) /\
  reaches [lit "k"] [20] [lit "<s>"; lit "a"] (Cursors 1 2 ([0] ++ [20])) /\
  match_up [lit "k"] [20] [lit "<s>"; lit "a"]
    <> Raise (AssertionError (TokenPair (lit "a") (lit "k"))) /\
  (forall ts, match_up [lit "k"] [20] [lit "<s>"; lit "a"] = Return ts ->
     ts !! 1%nat = Some 20) /\
  (forall source' target',
     source' ∉ merlin_silence_symbols -> startswith target' (lit "<") = false ->
     match_up (<[0%nat := source']> [lit "k"]) [20]
       (<[1%nat := target']> [lit "<s>"; lit "a"])
     = match_up [lit "k"] [20] [lit "<s>"; lit "a"]).
Proof.
  apply (match_up_phones_not_compared [lit "k"] [20] [lit "<s>"; lit "a"]
           (Cursors 0 1 [0]) (lit "k") (lit "a") 20); try reflexivity.
  - apply (reaches_step _ _ _ (Cursors 0 0 [])); [constructor|reflexivity].
  - intros H. vm_compute in H. by repeat (apply elem_of_cons in H as [H|H]; [done|]);
      apply elem_of_nil in H.
Defined.

(** ** durations_to_attention_matrix: the loop *)

Lemma slice_bound_id (n i : Z) : 0 <= i <= n -> slice_bound n i = i.
Proof. intros H. unfold slice_bound. rewrite decide_False by lia. lia. Qed.

Lemma assign_column_in_range (A : matrix) (start stop : Z) (i : nat) :
  0 <= start -> start <= stop -> stop <= Z.of_nat (length A) ->
  assign_column A start stop i
  = imap (fun r row =>
            if bool_decide (start <= Z.of_nat r < stop) then <[i := 1]> row else row) A.
Proof.
  intros H0 H1 H2. unfold assign_column.
  by rewrite !slice_bound_id by lia.
Qed.

Lemma imap_imap {A B C} (f : nat -> B -> C) (g : nat -> A -> B) (l : list A) :
  imap f (imap g l) = imap (fun n x => f n (g n x)) l.
Proof.
  apply list_eq. intros n. rewrite !list_lookup_imap.
  by destruct (l !! n).
Qed.

Lemma imap_id {A} (l : list A) : imap (fun _ x => x) l = l.
Proof.
  apply list_eq. intros n. rewrite list_lookup_imap. by destruct (l !! n).
Qed.

(** The loop works on every row on its own. *)
Lemma foldl_band_step (l : list Z) (i : nat) (A : matrix) (start : Z) :
  0 <= start -> Forall (fun x => 0 <= x) l ->
  start + Zsum l <= Z.of_nat (length A) ->
  foldl band_step (A, start) (zip (seq i (length l)) l)
  = (imap (fun r row => paint (Z.of_nat r) i start l row) A, start + Zsum l).
Proof.
  intros Hstart Hl. revert i A start Hstart.
  induction Hl as [|x l Hx Hl IH]; intros i A start Hstart Hfit.
  - cbn. rewrite imap_id, Zsum_nil. f_equal. lia.
  - rewrite Zsum_cons in Hfit. pose proof (Zsum_nonneg l Hl).
    cbn [length seq zip zip_with foldl]. unfold band_step at 2. cbn [fst snd].
    rewrite assign_column_in_range by lia.
    rewrite IH by (rewrite ?length_imap; lia).
    rewrite imap_imap, Zsum_cons. f_equal. lia.
Qed.

Lemma paint_length r i start l row : length (paint r i start l row) = length row.
Proof.
  revert i start row. induction l as [|x l IH]; intros i start row; cbn; [done|].
  rewrite IH. case_bool_decide; [apply length_insert|done].
Qed.

Lemma paint_lookup_before r i start l row c :
  (c < i)%nat -> paint r i start l row !! c = row !! c.
Proof.
  revert i start row. induction l as [|x l IH]; intros i start row Hc; cbn; [done|].
  rewrite IH by lia. case_bool_decide; [|done].
  apply list_lookup_insert_ne. lia.
Qed.

(** The row of frame [r] has a 1 in the column of the token in whose range
    the frame is, and is otherwise as before. *)
Lemma paint_lookup r i start l row j x :
  Forall (fun x => 0 <= x) l ->
  l !! j = Some x -> (i + j < length row)%nat ->
  paint r i start l row !! (i + j)%nat
  = if bool_decide (start + start_of l j <= r < start + start_of l j + x)
    then Some 1 else row !! (i + j)%nat.
Proof.
  intros Hl. revert i start row j.
  induction Hl as [|y l Hy Hl IH]; intros i start row j Hj Hlen; [done|].
  destruct j as [|j]; cbn in Hj |- *.
  - injection Hj as ->. rewrite paint_lookup_before by lia.
    unfold start_of. rewrite take_0, Zsum_nil, Nat.add_0_r, !Z.add_0_r.
    case_bool_decide; [|done]. apply list_lookup_insert_eq. lia.
  - replace (i + S j)%nat with (S i + j)%nat by lia.
    rewrite IH; [|done|by case_bool_decide; rewrite ?length_insert; lia].
    unfold start_of. cbn [take]. rewrite Zsum_cons, !Z.add_assoc.
    case_bool_decide; [done|].
    case_bool_decide; [|done]. apply list_lookup_insert_ne. lia.
Qed.

Lemma Zsum_insert_zero (row : list Z) (i : nat) :
  row !! i = Some 0 -> Zsum (<[i := 1]> row) = Zsum row + 1.
Proof.
  revert i. induction row as [|y row IH]; intros [|i] Hi; cbn in Hi; try done.
  - injection Hi as ->. cbn. rewrite !Zsum_cons. lia.
  - cbn. rewrite !Zsum_cons, IH by done. lia.
Qed.

(** The sum of a row grows by one when the frame is in the range of one of
    the tokens, and the ranges follow one another. *)
Lemma paint_sum r i start l row :
  Forall (fun x => 0 <= x) l ->
  (forall j, (j < length l)%nat -> row !! (i + j)%nat = Some 0) ->
  Zsum (paint r i start l row)
  = Zsum row + (if bool_decide (start <= r < start + Zsum l) then 1 else 0).
Proof.
  intros Hl. revert i start row.
  induction Hl as [|x l Hx Hl IH]; intros i start row Hrow.
  - cbn. rewrite Zsum_nil. rewrite bool_decide_false by lia. lia.
  - pose proof (Zsum_nonneg l Hl). cbn [paint]. rewrite Zsum_cons, IH.
    + case_bool_decide as H1.
      * rewrite Zsum_insert_zero.
        2:{ specialize (Hrow 0%nat). rewrite Nat.add_0_r in Hrow. apply Hrow. cbn. lia. }
        rewrite bool_decide_false by lia. rewrite bool_decide_true by lia. lia.
      * repeat case_bool_decide; lia.
    + intros j Hj. specialize (Hrow (S j)).
      replace (i + S j)%nat with (S i + j)%nat in Hrow by lia.
      case_bool_decide; [|apply Hrow; cbn; lia].
      rewrite list_lookup_insert_ne by lia. apply Hrow. cbn. lia.
Qed.

Lemma start_of_fits (l : list Z) (i : nat) (x : Z) :
  Forall (fun x => 0 <= x) l -> l !! i = Some x ->
  0 <= start_of l i /\ 0 <= x /\ start_of l i + x <= Zsum l.
Proof.
  intros Hl Hi. unfold start_of.
  rewrite <- (take_drop_middle l i x Hi) at 3.
  rewrite <- (take_drop_middle l i x Hi) in Hl.
  apply Forall_app in Hl as [H1 H2]. apply Forall_cons in H2 as [Hx H2].
  rewrite Zsum_app, Zsum_cons.
  apply Zsum_nonneg in H1, H2. lia.
Qed.

Lemma Zsum_snoc (l : list Z) (x : Z) : Zsum (l ++ [x]) = Zsum l + x.
Proof. rewrite Zsum_app, Zsum_cons, Zsum_nil. lia. Qed.

(** A range of frames within the first [N] holds as many frames as it is
    long. *)
Lemma Zsum_band (a x : Z) (N : nat) :
  0 <= a -> 0 <= x ->
  Zsum ((fun r : nat => if bool_decide (a <= Z.of_nat r < a + x) then 1 else 0)
          <$> seq 0 N)
  = Z.max 0 (Z.min (a + x) (Z.of_nat N) - a).
Proof.
  intros Ha Hx. induction N as [|N IH]; [cbn; rewrite Zsum_nil; lia|].
  rewrite seq_S, fmap_app, Zsum_app, IH. cbn [fmap list_fmap Nat.add].
  rewrite Zsum_cons, Zsum_nil. case_bool_decide; lia.
Qed.

Lemma Zsum_count_nonzero (l : list Z) :
  Forall (fun x => x = 0 \/ x = 1) l -> Zsum l = Z.of_nat (count_nonzero l).
Proof.
  unfold count_nonzero.
  induction 1 as [|x l [->| ->] _ IH]; [done|..]; rewrite Zsum_cons, IH; cbn.
  - rewrite bool_decide_true by done. cbn. lia.
  - rewrite bool_decide_false by done. cbn [negb length]. lia.
Qed.

Section attention_matrix.
Variable durations : list Z.
Hypothesis durations_nonneg : Forall (fun x => 0 <= x) durations.

Abbreviation nframes := (Z.to_nat (Zsum durations)).
Abbreviation painted := (painted_matrix durations).

Lemma painted_lookup (r : nat) :
  (r < nframes)%nat ->
  painted !! r
  = Some (paint (Z.of_nat r) 0 0 durations (replicate (length durations) 0)).
Proof.
  intros Hr. unfold painted_matrix.
  by rewrite list_lookup_imap, lookup_replicate_2.
Qed.

Lemma painted_rows (row : list Z) :
  row ∈ painted ->
  exists r, (r < nframes)%nat /\
    row = paint (Z.of_nat r) 0 0 durations (replicate (length durations) 0).
Proof.
  intros [r Hr]%list_elem_of_lookup. exists r.
  assert (r < nframes)%nat as Hlt.
  { apply lookup_lt_Some in Hr. unfold painted_matrix in Hr.
    by rewrite length_imap, length_replicate in Hr. }
  rewrite painted_lookup in Hr by done. split; [done|congruence].
Qed.

Lemma painted_row_sum (row : list Z) : row ∈ painted -> Zsum row = 1.
Proof.
  intros (r & Hr & ->)%painted_rows.
  rewrite paint_sum; [|done|].
  - assert (Zsum (replicate (length durations) 0) = 0) as ->.
    { induction (length durations); [done|]. cbn. by rewrite Zsum_cons, IHn. }
    rewrite bool_decide_true; [done|]. lia.
  - intros j Hj. by apply lookup_replicate_2.
Qed.

Lemma painted_entry (r i : nat) (x : Z) :
  (r < nframes)%nat -> durations !! i = Some x ->
  entry painted r i
  = Some (if bool_decide (start_of durations i <= Z.of_nat r < start_of durations i + x)
          then 1 else 0).
Proof.
  intros Hr Hi. unfold entry. rewrite painted_lookup by done. cbn.
  pose proof (lookup_lt_Some _ _ _ Hi) as Hlt.
  rewrite (paint_lookup _ 0 0 durations _ i x);
    [|done|done|by rewrite length_replicate].
  rewrite !Z.add_0_l. case_bool_decide; [done|].
  by apply lookup_replicate_2.
Qed.

Lemma painted_column (i : nat) (x : Z) :
  durations !! i = Some x ->
  column painted i
  = (fun r : nat =>
       if bool_decide (start_of durations i <= Z.of_nat r < start_of durations i + x)
       then 1 else 0) <$> seq 0 nframes.
Proof.
  intros Hi. apply list_eq. intros r. unfold column.
  rewrite !list_lookup_fmap.
  destruct (decide (r < nframes)%nat) as [Hr|Hr].
  - pose proof (painted_entry r i x Hr Hi) as He. unfold entry in He.
    rewrite lookup_seq_lt by done.
    destruct (painted !! r) as [row|]; cbn in *; [|done]. by rewrite He.
  - rewrite lookup_seq_ge by lia.
    rewrite (lookup_ge_None_2 painted); [done|].
    unfold painted_matrix. rewrite length_imap, length_replicate. lia.
Qed.

Lemma painted_column_sum (i : nat) (x : Z) :
  durations !! i = Some x -> Zsum (column painted i) = x.
Proof.
  intros Hi. rewrite (painted_column i x Hi).
  destruct (start_of_fits durations i x) as (H0 & Hx & Hfit); [done..|].
  rewrite Zsum_band by done. lia.
Qed.

Lemma painted_column_count (i : nat) (x : Z) :
  durations !! i = Some x -> Z.of_nat (count_nonzero (column painted i)) = x.
Proof.
  intros Hi. rewrite <- Zsum_count_nonzero; [by apply painted_column_sum|].
  rewrite (painted_column i x Hi). apply Forall_fmap, Forall_forall.
  intros r _. cbn. case_bool_decide; auto.
Qed.

Lemma painted_sum_columns : sum_columns (length durations) painted = durations.
Proof.
  apply list_eq. intros i. unfold sum_columns. rewrite list_lookup_fmap.
  destruct (durations !! i) as [x|] eqn:Hi.
  - rewrite lookup_seq_lt by by eapply lookup_lt_Some. cbn.
    f_equal. by apply painted_column_sum.
  - rewrite lookup_seq_ge; [done|]. by apply lookup_ge_None.
Qed.

(** The call returns the painted matrix: both assertions hold. *)
Lemma durations_to_attention_matrix_painted :
  durations_to_attention_matrix durations = Return painted.
Proof.
  unfold durations_to_attention_matrix, zeros, enumerate.
  pose proof (Zsum_nonneg durations durations_nonneg) as Hsum.
  rewrite decide_False by lia. cbn [mbind result_bind].
  rewrite foldl_band_step;
    [|done|done|rewrite length_replicate; lia].
  cbn [fst]. fold (painted_matrix durations).
  assert (np_all (sum_rows painted) = true) as ->.
  { unfold np_all, sum_rows. apply forallb_forall. intros v Hv.
    apply list_elem_of_In, list_elem_of_fmap in Hv as (row & -> & Hrow).
    rewrite (painted_row_sum row Hrow). done. }
  cbn. rewrite painted_sum_columns, bool_decide_true by done. done.
Qed.
End attention_matrix.

(** ** durations_to_attention_matrix: the claims *)

(** C5, as stated, fails: in the matrix for the durations 3, 0, 1, 2 the
    row 3 is the frame of the third token and has its 1 in column 2, and the
    rows 4 and 5 have theirs in column 3. *)
Lemma attention_matrix_example_row_3 :
  ~ exists A, durations_to_attention_matrix [3; 0; 1; 2] = Return A /\
              example_as_stated A.
Proof.
  intros (A & HA & _ & _ & _ & Hrow & _).
  vm_compute in HA. injection HA as <-. discriminate.
Qed.

(** C5, amended.  The durations 3, 0, 1, 2 give the 6 by 4 matrix whose rows
    0 to 2 have a 1 in column 0, whose row 3 has a 1 in column 2 and whose
    rows 4 and 5 have a 1 in column 3, with zeros elsewhere; column 1 is all
    zero and every row sums to 1. *)
Theorem attention_matrix_example :
  exists A,
    durations_to_attention_matrix [3; 0; 1; 2] = Return A /\
    A = [[1; 0; 0; 0]; [1; 0; 0; 0]; [1; 0; 0; 0];
         [0; 0; 1; 0]; [0; 0; 0; 1]; [0; 0; 0; 1]] /\
    Forall (fun row => Zsum row = 1) A /\
    count_nonzero (column A 1) = 0%nat.
Proof.
  eexists. split; [reflexivity|]. split; [reflexivity|].
  split; [by repeat constructor|reflexivity].
Qed.

(** C6. For durations that are not negative the call returns a matrix with
    as many rows as the durations sum to and as many columns as there are
    durations; every row sums to 1; and in the column of the token [i] the
    entries that are not zero are as many as its duration: they are the 1s
    at the frames from the sum of the durations before it up to, and not
    including, that sum plus its own duration. *)
Theorem attention_matrix_bands (durations : list Z) :
  Forall (fun x => 0 <= x) durations ->
  exists A,
    durations_to_attention_matrix durations = Return A /\
    Z.of_nat (length A) = Zsum durations /\
    Forall (fun row => length row = length durations) A /\
    Forall (fun row => Zsum row = 1) A /\
    forall i dur, durations !! i = Some dur ->
      Z.of_nat (count_nonzero (column A i)) = dur /\
      forall r, (r < length A)%nat ->
        entry A r i
        = Some (if bool_decide (start_of durations i <= Z.of_nat r
                                < start_of durations i + dur)
                then 1 else 0).
Proof.
  intros Hpos. exists (painted_matrix durations).
  pose proof (Zsum_nonneg durations Hpos) as Hsum.
  assert (Hlen : length (painted_matrix durations) = Z.to_nat (Zsum durations)).
  { unfold painted_matrix. by rewrite length_imap, length_replicate. }
  split; [by apply durations_to_attention_matrix_painted|].
  split; [lia|].
  split.
  { apply Forall_forall. intros row (r & _ & ->)%painted_rows.
    by rewrite paint_length, length_replicate. }
  split.
  { apply Forall_forall. intros row Hrow. by apply (painted_row_sum durations). }
  intros i dur Hi. split; [by apply painted_column_count|].
  intros r Hr. apply painted_entry; [done|lia|done].
Qed.

Lemma attention_matrix_bands_witness :
  exists A,
    durations_to_attention_matrix [3; 0; 1; 2] = Return A /\
    Z.of_nat (length A) = Zsum [3; 0; 1; 2] /\
    Forall (fun row => length row = length [3; 0; 1; 2]) A /\
    Forall (fun row => Zsum row = 1) A /\
    forall i dur, [3; 0; 1; 2] !! i = Some dur ->
      Z.of_nat (count_nonzero (column A i)) = dur /\
      forall r, (r < length A)%nat ->
        entry A r i
        = Some (if bool_decide (start_of [3; 0; 1; 2] i <= Z.of_nat r
                                < start_of [3; 0; 1; 2] i + dur)
                then 1 else 0).
Proof.
  apply (attention_matrix_bands [3; 0; 1; 2]).
  repeat constructor; lia.
Defined.

(** ** Lines, fields and tokens *)

Lemma splitlines_line (body cur rest : str) :
  Forall (fun c => is_linebreak c = false) body ->
  splitlines cur (body ++ nl :: rest) = (cur ++ body ++ [nl]) :: splitlines [] rest.
Proof.
  intros Hbody. revert cur.
  induction Hbody as [|c body Hc _ IH]; intros cur.
  - cbn. by destruct rest.
  - cbn. rewrite Hc, IH. by rewrite <- app_assoc.
Qed.

Lemma readlines_lines (bodies : list str) :
  Forall (Forall (fun c => is_linebreak c = false)) bodies ->
  readlines (mjoin ((fun b => b ++ [nl]) <$> bodies)) = (fun b => b ++ [nl]) <$> bodies.
Proof.
  unfold readlines. induction 1 as [|b bodies Hb _ IH]; [done|].
  cbn. rewrite <- app_assoc. cbn. rewrite splitlines_line by done.
  cbn. f_equal. exact IH.
Qed.

Lemma rstrip_snoc_drop (p : ascii -> bool) (s : str) (c : ascii) :
  p c = true -> rstrip p (s ++ [c]) = rstrip p s.
Proof. intros Hc. unfold rstrip. rewrite reverse_snoc. cbn [lstrip]. by rewrite Hc. Qed.

Lemma rstrip_snoc_keep (p : ascii -> bool) (s : str) (c : ascii) :
  p c = false -> rstrip p (s ++ [c]) = s ++ [c].
Proof.
  intros Hc. unfold rstrip. rewrite reverse_snoc. cbn [lstrip]. rewrite Hc.
  by rewrite reverse_cons, reverse_involutive.
Qed.

(** Stripping leaves a string whose two ends stay. *)
Lemma strip_kept (p : ascii -> bool) (first last : ascii) (s s' : str) :
  first :: s = s' ++ [last] -> p first = false -> p last = false ->
  strip p (first :: s) = first :: s.
Proof.
  intros Heq Hfirst Hlast. unfold strip. cbn [lstrip]. rewrite Hfirst.
  rewrite Heq. by apply rstrip_snoc_keep.
Qed.

Lemma strip_line (p : ascii -> bool) (first last : ascii) (s s' : str) :
  first :: s = s' ++ [last] -> p first = false -> p last = false -> p nl = true ->
  strip p ((first :: s) ++ [nl]) = first :: s.
Proof.
  intros Heq Hfirst Hlast Hnl. unfold strip.
  rewrite <- app_comm_cons. cbn [lstrip]. rewrite Hfirst.
  rewrite app_comm_cons, rstrip_snoc_drop by done.
  rewrite Heq. by apply rstrip_snoc_keep.
Qed.

Lemma split_from_plain (sep : ascii) (s cur : str) :
  sep ∉ s -> split_from sep cur s = [cur ++ s].
Proof.
  revert cur. induction s as [|c s IH]; intros cur Hs.
  - by rewrite app_nil_r.
  - apply not_elem_of_cons in Hs as [Hc Hs]. cbn.
    rewrite bool_decide_false by done. rewrite IH by done.
    by rewrite <- app_assoc.
Qed.

Lemma split_from_field (sep : ascii) (s cur rest : str) :
  sep ∉ s ->
  split_from sep cur (s ++ sep :: rest) = (cur ++ s) :: split_from sep [] rest.
Proof.
  revert cur. induction s as [|c s IH]; intros cur Hs.
  - cbn. rewrite bool_decide_true by done. by rewrite app_nil_r.
  - apply not_elem_of_cons in Hs as [Hc Hs]. cbn.
    rewrite bool_decide_false by done. rewrite IH by done.
    by rewrite <- app_assoc.
Qed.

(** A token is taken whole, whatever came before it. *)
Lemma re_split_from_token (t : str) (in_run : bool) (cur rest : str) :
  Forall solid t -> (in_run = true -> t <> []) ->
  re_split_from in_run cur (t ++ rest) = re_split_from false (cur ++ t) rest
  \/ (t = [] /\ in_run = false).
Proof.
  intros Ht Hrun. destruct Ht as [|c t [_ Hc] Ht].
  - destruct in_run; [by destruct Hrun|]. by right.
  - left. cbn. rewrite Hc. clear Hrun.
    revert c cur Hc. induction Ht as [|c' t [_ Hc'] _ IH]; intros c cur Hc.
    + done.
    + cbn. rewrite Hc'. rewrite IH by done. by rewrite <- !app_assoc.
Qed.

Lemma join_cons_cons (sep x y : str) (l : list str) :
  join sep (x :: y :: l) = x ++ sep ++ join sep (y :: l).
Proof. done. Qed.

Lemma re_split_from_tokens (t : str) (ts : list str) (in_run : bool) (cur : str) :
  token t -> Forall token ts ->
  re_split_from in_run cur (join (lit " ") (t :: ts)) = (cur ++ t) :: ts.
Proof.
  intros Ht Hts. revert t in_run cur Ht.
  induction Hts as [|t' ts Ht' _ IH]; intros t in_run cur [Hne Ht].
  - cbn. rewrite <- (app_nil_r t) at 1.
    destruct (re_split_from_token t in_run cur [] Ht) as [->|[-> _]]; done.
  - rewrite join_cons_cons.
    destruct (re_split_from_token t in_run cur (lit " " ++ join (lit " ") (t' :: ts)) Ht)
      as [->|[-> _]]; [done| |done].
    cbn [lit list_ascii_of_string app re_split_from].
    replace (is_space " ") with true by done.
    f_equal. by rewrite IH.
Qed.

Lemma re_split_spaces_join (ts : list str) :
  ts <> [] -> Forall token ts -> re_split_spaces (join (lit " ") ts) = ts.
Proof.
  intros Hne Hts. destruct Hts as [|t ts Ht Hts]; [done|].
  unfold re_split_spaces. by rewrite re_split_from_tokens.
Qed.

Lemma is_linebreak_is_space (c : ascii) : is_linebreak c = true -> is_space c = true.
Proof. destruct c as [[] [] [] [] [] [] [] []]; vm_compute; congruence. Qed.

Lemma solid_plain (c : ascii) : solid c -> plain c.
Proof.
  intros [Hp Hs]. split; [done|].
  destruct (is_linebreak c) eqn:E; [|done].
  apply is_linebreak_is_space in E. congruence.
Qed.

Lemma Forall_join {P : ascii -> Prop} (sep : str) (l : list str) :
  Forall P sep -> Forall (Forall P) l -> Forall P (join sep l).
Proof.
  intros Hsep. induction 1 as [|x l Hx Hl IH]; [constructor|].
  destruct l as [|y l]; [done|].
  rewrite join_cons_cons. by rewrite !Forall_app.
Qed.

Lemma join_tokens_last (ts : list str) :
  ts <> [] -> Forall token ts ->
  exists s c, join (lit " ") ts = s ++ [c] /\ solid c.
Proof.
  intros Hne Hts. induction Hts as [|t ts [Ht Hsolid] Hts IH]; [done|].
  destruct ts as [|t' ts].
  - cbn. destruct t as [|c t _] using rev_ind; [done|].
    apply Forall_app in Hsolid as [_ [Hc _]%Forall_cons]. eauto.
  - destruct IH as (s & c & Heq & Hc); [done|].
    rewrite join_cons_cons, Heq. exists (t ++ lit " " ++ s), c.
    by rewrite <- !app_assoc.
Qed.

(** The fields of a line come back when the line is split. *)
Lemma split_join (sep : ascii) (fields : list str) (first cur : str) :
  Forall (fun f => sep ∉ f) (first :: fields) ->
  split_from sep cur (join [sep] (first :: fields)) = (cur ++ first) :: fields.
Proof.
  revert first cur. induction fields as [|f fields IH]; intros first cur Hall.
  - cbn. apply split_from_plain. by apply Forall_cons in Hall as [? _].
  - apply Forall_cons in Hall as [Hfirst Hall].
    rewrite join_cons_cons. cbn [app].
    rewrite split_from_field by done. f_equal. by rewrite IH.
Qed.

(** ** The decimal form of an integer *)

Lemma pretty_N_char_solid (x : N) : solid (pretty_N_char x).
Proof. unfold pretty_N_char. repeat case_match; by split. Qed.

Lemma pretty_N_go_token (x : N) (s : string) :
  token (lit s) -> token (lit (pretty_N_go x s)).
Proof.
  revert s. induction (N.lt_wf_0 x) as [x _ IH]; intros s Hs.
  destruct (decide (0 < x)%N) as [Hx|Hx].
  - rewrite pretty_N_go_step by done. apply IH; [by apply N.div_lt|].
    destruct Hs as [_ Hs]. split; [done|].
    constructor; [apply pretty_N_char_solid|done].
  - replace x with 0%N by lia. by rewrite pretty_N_go_0.
Qed.

Lemma pretty_positive_token (x : positive) : token (lit (pretty x)).
Proof.
  unfold pretty, pretty_positive, pretty, pretty_N.
  rewrite decide_False by done.
  rewrite pretty_N_go_step by lia. apply pretty_N_go_token.
  split; [done|]. constructor; [apply pretty_N_char_solid|constructor].
Qed.

Lemma str_of_int_token (v : Z) : token (str_of_int v).
Proof.
  unfold str_of_int. destruct v as [|x|x].
  - split; [done|]. by repeat constructor.
  - apply pretty_positive_token.
  - destruct (pretty_positive_token x) as [_ Hx].
    split; [done|]. constructor; [by split|done].
Qed.

(** ** write_transcript and read_transcript: one line *)

Lemma foldl_lines (texts : gmap str utterance) (ks : list str) (f : str) :
  foldl (fun f base =>
           match texts !! base with
           | Some u =>
               match write_line base u true with
               | Some line => f ++ line ++ [nl]
               | None => f
               end
           | None => f
           end) f ks
  = f ++ mjoin (line_of texts <$> ks).
Proof.
  revert f. induction ks as [|k ks IH]; intros f; [by rewrite app_nil_r|].
  cbn [foldl fmap list_fmap mjoin list_join]. rewrite IH.
  unfold line_of at 2.
  destruct (texts !! k) as [u|]; [|done].
  destruct (write_line k u true) as [line|]; [|done].
  by rewrite <- !app_assoc.
Qed.

Lemma write_transcript_lines (texts : gmap str utterance) :
  write_transcript texts true = mjoin (line_of texts <$> sorted (map_to_list texts).*1).
Proof. unfold write_transcript. by rewrite foldl_lines. Qed.

Lemma write_line_fields (base : str) (u : utterance) (ds : list Z) :
  duration u = Some ds ->
  write_line base u true = Some (join (lit "|") (fields_of base u ds)).
Proof.
  intros Hds. unfold write_line, fields_of. rewrite Hds.
  rewrite !join_cons_cons. cbn [join]. f_equal.
  by rewrite <- !app_assoc.
Qed.

Section one_line.
Variables (texts : gmap str utterance) (base : str) (u : utterance).
Hypothesis in_texts : texts !! base = Some u.
Hypothesis base_clean : clean_id base.
Hypothesis u_clean : clean_utterance u.

Lemma fields_plain :
  exists ds, duration u = Some ds /\
    parsed texts base = fields_of base u ds /\
    Forall (Forall plain) (fields_of base u ds).
Proof.
  destruct u_clean as (Htext & Hne & Hphones & ds & Hds & Hdsne).
  exists ds. split; [done|]. split; [unfold parsed; by rewrite in_texts, Hds|].
  assert (Hspace : Forall plain (lit " ")) by by repeat constructor.
  unfold fields_of. repeat constructor.
  - apply base_clean.
  - done.
  - apply Forall_join; [done|].
    eapply Forall_impl; [done|]. intros t [_ Ht].
    eapply Forall_impl; [done|]. apply solid_plain.
  - apply Forall_join; [done|]. apply Forall_fmap, Forall_forall.
    intros v _. cbn. destruct (str_of_int_token v) as [_ Hv].
    eapply Forall_impl; [done|]. apply solid_plain.
Qed.

(** The line of the utterance: it starts with a character that is not
    white space and ends with a solid one. *)
Lemma line_ends (ds : list Z) :
  duration u = Some ds -> ds <> [] ->
  exists first rest front final,
    join (lit "|") (fields_of base u ds) = first :: rest /\
    first :: rest = front ++ [final] /\
    is_space first = false /\ first <> "|"%char /\ solid final.
Proof.
  intros Hds Hne.
  destruct base_clean as (Hplain & c & b & Hbase & Hc).
  destruct (join_tokens_last (str_of_int <$> ds)) as (s & z & Hs & Hz).
  { by destruct ds. }
  { apply Forall_fmap, Forall_forall. intros v _. apply str_of_int_token. }
  unfold fields_of. rewrite !join_cons_cons. cbn [join]. rewrite Hs, Hbase.
  set (middle := lit "|" ++ [] ++ lit "|" ++ text u ++ lit "|" ++
                 join (lit " ") (phones u) ++ lit "|" ++ [] ++ lit "|").
  exists c, (b ++ middle ++ s ++ [z]), ((c :: b) ++ middle ++ s), z.
  split; [subst middle; by rewrite <- !app_assoc|].
  split; [by rewrite <- !app_assoc|].
  split; [done|]. split; [|done].
  rewrite Hbase in Hplain. by apply Forall_cons in Hplain as [[? _] _].
Qed.

Lemma line_roundtrip :
  line_of texts base = body_of texts base ++ [nl] /\
  Forall (fun c => is_linebreak c = false) (body_of texts base) /\
  strip (one_of [nl; cr; " "; "|"]%char) (body_of texts base ++ [nl])
    = body_of texts base /\
  is_nonempty (body_of texts base) = true /\
  split "|" (strip is_space (body_of texts base)) = parsed texts base /\
  length (parsed texts base) = 6%nat.
Proof.
  destruct fields_plain as (ds & Hds & Hparsed & Hplain).
  destruct u_clean as (_ & _ & _ & ds' & Hds' & Hne).
  assert (ds' = ds) as -> by congruence.
  destruct (line_ends ds Hds Hne)
    as (first & rest & front & final & Hbody & Hsnoc & Hfirst & Hpipe & [Hl1 Hl2]).
  assert (Hbody_of : body_of texts base = join (lit "|") (fields_of base u ds)).
  { unfold body_of. by rewrite in_texts, (write_line_fields base u ds Hds). }
  rewrite Hbody_of.
  split; [unfold line_of; by rewrite in_texts, (write_line_fields base u ds Hds)|].
  split.
  { apply (Forall_join (P := fun c => is_linebreak c = false)).
    - by repeat constructor.
    - eapply Forall_impl; [exact Hplain|]. intros f Hf.
      eapply Forall_impl; [exact Hf|]. by intros c [_ ?]. }
  rewrite Hbody.
  assert (Hstrip : forall c, is_space c = false -> c <> "|"%char ->
                     one_of [nl; cr; " "; "|"]%char c = false).
  { intros c Hc Hp. unfold one_of. apply bool_decide_eq_false.
    intros Hin. repeat (apply elem_of_cons in Hin as [->|Hin]; [done|]).
    by apply elem_of_nil in Hin. }
  split; [by apply (strip_line _ first final rest front); auto|].
  split; [done|].
  split; [|by rewrite Hparsed].
  rewrite (strip_kept _ first final rest front) by done.
  rewrite <- Hbody, Hparsed. unfold split, fields_of.
  apply (split_join "|"%char).
  eapply Forall_impl; [exact Hplain|]. intros f Hf Hin.
  eapply Forall_forall in Hf as [Hf _]; [|done]. done.
Qed.

(** The fields of the line give the utterance back, without durations. *)
Lemma read_fields_step (transcript : gmap str utterance) (rest : list (list str)) :
  read_fields transcript (parsed texts base :: rest)
  = read_fields (<[base := without_duration u]> transcript) rest.
Proof.
  destruct fields_plain as (ds & Hds & -> & _).
  destruct u_clean as (_ & Hne & Hphones & _).
  unfold fields_of. cbn [read_fields length].
  rewrite bool_decide_true by lia. cbn [assert mbind result_bind].
  by rewrite re_split_spaces_join.
Qed.
End one_line.

(** ** write_transcript and read_transcript: the file *)

Lemma filter_all {A} (f : A -> bool) (l : list A) :
  Forall (fun x => f x = true) l -> python_filter f l = l.
Proof.
  unfold python_filter. induction 1 as [|x l Hx _ IH]; [done|].
  cbn. by rewrite Hx, IH.
Qed.

Lemma check_field_counts_same (n : nat) (texts : list (list str)) :
  Forall (fun line => length line = n) texts ->
  check_field_counts n texts = Return tt.
Proof.
  induction 1 as [|line texts Hline _ IH]; [done|].
  cbn. rewrite bool_decide_true by done. done.
Qed.

Section file.
Variable texts : gmap str utterance.
Hypothesis texts_clean :
  map_Forall (fun base u => clean_id base /\ clean_utterance u) texts.

Abbreviation written ks :=
  (Forall (fun k => exists u, texts !! k = Some u /\ clean_id k /\ clean_utterance u) ks).

Lemma sorted_keys_written : written (sorted (map_to_list texts).*1).
Proof.
  apply Forall_forall. intros k Hk.
  unfold sorted in Hk. rewrite merge_sort_Permutation in Hk.
  apply list_elem_of_fmap in Hk as ([k' u] & -> & Hin).
  apply elem_of_map_to_list in Hin. exists u. split; [done|].
  by apply texts_clean.
Qed.

Lemma sorted_keys_elem (k : str) :
  k ∈ sorted (map_to_list texts).*1 <-> is_Some (texts !! k).
Proof.
  unfold sorted. rewrite merge_sort_Permutation, list_elem_of_fmap. split.
  - intros ([k' u] & -> & Hin). apply elem_of_map_to_list in Hin. by exists u.
  - intros [u Hu]. exists (k, u). split; [done|]. by apply elem_of_map_to_list.
Qed.

(** What [read_transcript] has in [texts] before its two loops. *)
Lemma lines_parsed (ks : list str) :
  written ks ->
  (fun line => split "|"%char (strip is_space line))
    <$> python_filter is_nonempty
          (strip (one_of [nl; cr; " "; "|"]%char)
             <$> readlines (mjoin (line_of texts <$> ks)))
  = parsed texts <$> ks.
Proof.
  intros Hks.
  assert (Hall : Forall (fun k =>
            line_of texts k = body_of texts k ++ [nl] /\
            Forall (fun c => is_linebreak c = false) (body_of texts k) /\
            strip (one_of [nl; cr; " "; "|"]%char) (body_of texts k ++ [nl])
              = body_of texts k /\
            is_nonempty (body_of texts k) = true /\
            split "|" (strip is_space (body_of texts k)) = parsed texts k /\
            length (parsed texts k) = 6%nat) ks).
  { eapply Forall_impl; [exact Hks|]. intros k (u & Hu & Hk & Hclean).
    by apply (line_roundtrip texts k u). }
  assert (line_of texts <$> ks = (fun b => b ++ [nl]) <$> (body_of texts <$> ks)) as ->.
  { rewrite <- list_fmap_compose. apply Forall_fmap_ext_1.
    eapply Forall_impl; [exact Hall|]. by intros k (? & _). }
  rewrite readlines_lines.
  2:{ apply Forall_fmap. eapply Forall_impl; [exact Hall|]. by intros k (_ & ? & _). }
  rewrite <- !list_fmap_compose.
  assert ((strip (one_of [nl; cr; " "; "|"]%char) ∘ (fun b => b ++ [nl]) ∘ body_of texts)
            <$> ks = body_of texts <$> ks) as ->.
  { apply Forall_fmap_ext_1.
    eapply Forall_impl; [exact Hall|]. by intros k (_ & _ & ? & _). }
  rewrite filter_all.
  2:{ apply Forall_fmap. eapply Forall_impl; [exact Hall|]. by intros k (_ & _ & _ & ? & _). }
  rewrite <- list_fmap_compose. apply Forall_fmap_ext_1.
  eapply Forall_impl; [exact Hall|]. by intros k (_ & _ & _ & _ & ? & _).
Qed.

Lemma parsed_counts (ks : list str) :
  written ks ->
  check_field_counts (length (default [] (head (parsed texts <$> ks))))
    (parsed texts <$> ks) = Return tt.
Proof.
  intros Hks.
  assert (Hall : Forall (fun line => length line = 6%nat) (parsed texts <$> ks)).
  { apply Forall_fmap. eapply Forall_impl; [exact Hks|].
    intros k (u & Hu & Hk & Hclean). by apply (line_roundtrip texts k u). }
  apply check_field_counts_same.
  destruct Hall as [|line rest Hline Hrest]; [constructor|].
  cbn. rewrite Hline. by constructor.
Qed.

(** The second loop puts every id of the file in the dictionary. *)
Lemma read_fields_parsed (ks : list str) (transcript : gmap str utterance) :
  written ks ->
  exists back,
    read_fields transcript (parsed texts <$> ks) = Return back /\
    forall j, back !! j
      = if decide (j ∈ ks) then without_duration <$> texts !! j else transcript !! j.
Proof.
  intros Hks. revert transcript.
  induction Hks as [|k ks (u & Hu & Hk & Hclean) _ IH]; intros transcript.
  - exists transcript. split; [done|]. intros j.
    rewrite decide_False; [done|]. apply not_elem_of_nil.
  - destruct (IH (<[k := without_duration u]> transcript)) as (back & Hback & Hlook).
    exists back. split.
    + cbn [fmap list_fmap]. by rewrite (read_fields_step texts k u).
    + intros j. rewrite Hlook.
      destruct (decide (j ∈ ks)) as [Hin|Hin].
      * rewrite decide_True; [done|]. by right.
      * destruct (decide (j = k)) as [->|Hne].
        -- rewrite decide_True by by left. by rewrite lookup_insert_eq, Hu.
        -- rewrite decide_False by (intros [?|?]%elem_of_cons; done).
           by rewrite lookup_insert_ne.
Qed.
End file.

(** ** write_transcript and read_transcript: the claim *)

(** C8, amended.  For a transcript whose ids and texts hold no "|" and no
    end of line, whose ids start with a character that is not white space,
    whose phones are tokens, at least one for an utterance, and whose
    utterances all have durations, at least one: reading the file written
    with durations returns, for the same ids, the same phones and the same
    text; it returns no durations, which [read_transcript] does not read. *)
Theorem transcript_roundtrip (texts : gmap str utterance) :
  map_Forall (fun base u => clean_id base /\ clean_utterance u) texts ->
  read_transcript (write_transcript texts true)
  = Return (without_duration <$> texts).
Proof.
  intros Hclean. unfold read_transcript.
  rewrite write_transcript_lines.
  pose proof (sorted_keys_written texts Hclean) as Hks.
  rewrite (lines_parsed texts _ Hks).
  rewrite (parsed_counts texts _ Hks). cbn [mbind result_bind].
  destruct (read_fields_parsed texts _ ∅ Hks) as (back & -> & Hlook).
  f_equal. apply map_eq. intros j. rewrite Hlook, lookup_fmap.
  destruct (decide _) as [Hin|Hin]; [done|].
  rewrite lookup_empty.
  destruct (texts !! j) eqn:Hj; [|done].
  destruct Hin. apply sorted_keys_elem. by rewrite Hj.
Qed.

Lemma demo_transcript_clean :
  map_Forall (fun base u => clean_id base /\ clean_utterance u)
    ({[ lit "utt1" := Utterance [lit "<s>"; lit "k"; lit "a"] (lit "ka, ka") (Some [0; 3; 4]) ]}
       : gmap str utterance).
Proof.
  apply map_Forall_singleton. split.
  - split; [by repeat constructor|]. by eexists _, _.
  - split; [by repeat constructor|]. split; [done|].
    split; [|by eexists].
    repeat constructor; done.
Qed.

Lemma transcript_roundtrip_witness :
  read_transcript
    (write_transcript
       {[ lit "utt1" := Utterance [lit "<s>"; lit "k"; lit "a"] (lit "ka, ka") (Some [0; 3; 4]) ]}
       true)
  = Return (without_duration <$>
      {[ lit "utt1" := Utterance [lit "<s>"; lit "k"; lit "a"] (lit "ka, ka") (Some [0; 3; 4]) ]}).
Proof.
  apply (transcript_roundtrip
    {[ lit "utt1" := Utterance [lit "<s>"; lit "k"; lit "a"] (lit "ka, ka") (Some [0; 3; 4]) ]}).
  apply map_Forall_singleton. split.
  - split; [by repeat constructor|]. by eexists _, _.
  - split; [by repeat constructor|]. split; [done|].
    split; [|by eexists].
    repeat constructor; done.
Defined.

(** C8, as stated, fails: the durations that [write_transcript] puts in the
    sixth field of a line are not among the four fields that
    [read_transcript] keeps. *)
Lemma transcript_durations_not_read : ~ roundtrip_as_stated.
Proof.
  intros H.
  destruct (H _ demo_transcript_clean) as (back & Hback & Hsame).
  destruct (Hsame (lit "utt1") _ (lookup_singleton_eq _ _)) as (u' & Hu' & _ & _ & Hd).
  vm_compute in Hback. injection Hback as <-.
  vm_compute in Hu'. injection Hu' as <-. discriminate.
Qed.

(** * Further properties *)

(** ** resample_timings: the edges and the drift *)

(** An empty array of lengths passes the test of the remainders and has no
    last end point: the call raises [IndexError], whatever the rates and
    the total. *)
Theorem resample_timings_empty (from_rate to_rate : Z) (total_duration : option Z) :
  resample_timings [] from_rate to_rate total_duration = Raise IndexError.
Proof. reflexivity. Qed.





Lemma Zsum_take_S (l : list Z) (i : nat) (x : Z) :
  l !! i = Some x -> Zsum (take (S i) l) = Zsum (take i l) + x.
Proof. intros Hi. by rewrite (take_S_r l i x), Zsum_snoc. Qed.








Section resample_facts.
Variables (lengths : list Z) (from_rate to_rate : Z).
Hypothesis lengths_nonempty : lengths <> [].
Hypothesis from_rate_pos : 0 < from_rate.
Hypothesis to_rate_pos : 0 < to_rate.
Hypothesis lengths_nonneg : Forall (fun x => 0 <= x) lengths.
Hypothesis lengths_divisible : Forall (Z.divide from_rate) lengths.

End resample_facts.









(** ** match_up: what a call keeps *)

Section match_up_more.
Variables (merlin_label : list str) (merlin_timings : list Z).
Variable phoneme_label : list str.

(** A turn of the first loop either takes the duration of the source token
    and moves both cursors, or inserts a zero and moves the target cursor. *)
Lemma align_step_cases s s' :
  align_step merlin_label merlin_timings phoneme_label s = Continue s' ->
  d s' = S (d s) /\
  ((exists t, merlin_timings !! m s = Some t /\ m s' = S (m s) /\
              timings s' = timings s ++ [t]) \/
   (m s' = m s /\ timings s' = timings s ++ [0])).
Proof.
  unfold align_step. intros H.
  destruct (merlin_label !! m s) as [source|]; [|done].
  destruct (phoneme_label !! d s) as [target|]; [|done].
  repeat case_match; simplify_eq; cbn; eauto 10.
Qed.

Lemma reaches_sum s :
  reaches merlin_label merlin_timings phoneme_label s ->
  Zsum (timings s) = Zsum (take (m s) merlin_timings) /\
  (m s <= length merlin_timings)%nat /\ (m s <= d s)%nat /\
  (Forall (fun x => 0 <= x) merlin_timings -> Forall (fun x => 0 <= x) (timings s)).
Proof.
  induction 1 as [|s s' _ (Hsum & Hm & Hd & Hpos) Hstep].
  { cbn. rewrite take_0. repeat split; [lia..|constructor]. }
  apply align_step_cases in Hstep as (Hd' & [(t & Ht & Hm' & Hts)|(Hm' & Hts)]);
    rewrite Hts, Hm', Zsum_snoc.
  - rewrite (Zsum_take_S _ _ _ Ht), Hsum.
    apply lookup_lt_Some in Ht as Hlt.
    repeat split; [lia..|].
    intros Hall. apply Forall_app. split; [by apply Hpos|].
    constructor; [|done]. by eapply (Forall_lookup_1 _ _ _ _ Hall).
  - repeat split; [lia..|].
    intros Hall. apply Forall_app. split; [by apply Hpos|]. by repeat constructor.
Qed.

Lemma Zsum_replicate_zero (n : nat) : Zsum (replicate n 0) = 0.
Proof. induction n; [done|]. cbn. by rewrite Zsum_cons, IHn. Qed.
End match_up_more.

(** The alignment keeps the total duration: a call that returns has read a
    duration for every source token, and the durations it returns sum to
    the durations of the source tokens. *)
Theorem match_up_total_duration
    (merlin_label : list str) (merlin_timings : list Z) (phoneme_label : list str)
    (ts : list Z) :
  match_up merlin_label merlin_timings phoneme_label = Return ts ->
  (length merlin_label <= length merlin_timings)%nat /\
  Zsum ts = Zsum (take (length merlin_label) merlin_timings).
Proof.
  intros (s & _ & Hs & Hm & ->)%match_up_Return.
  apply reaches_sum in Hs as (Hsum & Hlen & _).
  rewrite Zsum_app, Zsum_replicate_zero, Hsum, Hm. split; lia.
Qed.

Lemma match_up_total_duration_witness :
  (length [lit "sil"; lit "k"; lit "a"] <= length [10; 20; 30])%nat /\
  Zsum [10; 0; 20; 30; 0]
  = Zsum (take (length [lit "sil"; lit "k"; lit "a"]) [10; 20; 30]).
Proof.
  apply (match_up_total_duration [lit "sil"; lit "k"; lit "a"] [10; 20; 30]
           [lit "<s>"; lit "<w>"; lit "k"; lit "a"; lit "<e>"]).
  reflexivity.
Defined.

(** With more source tokens than target tokens the call cannot return:
    every source token needs a target token of its own. *)
Theorem match_up_source_longer
    (merlin_label : list str) (merlin_timings : list Z) (phoneme_label : list str) :
  (length phoneme_label < length merlin_label)%nat ->
  exists e, match_up merlin_label merlin_timings phoneme_label = Raise e.
Proof.
  intros Hlen.
  destruct (match_up merlin_label merlin_timings phoneme_label) as [ts|e|] eqn:E.
  - apply match_up_Return in E as (s & _ & Hs & Hm & _).
    pose proof (reaches_invariant _ _ _ _ Hs) as (_ & Hd & _).
    apply reaches_sum in Hs as (_ & _ & Hmd & _). lia.
  - by exists e.
  - by apply match_up_total in E.
Qed.

Lemma match_up_source_longer_witness :
  exists e, match_up [lit "k"; lit "a"] [20; 30] [lit "k"] = Raise e.
Proof.
  apply (match_up_source_longer [lit "k"; lit "a"] [20; 30] [lit "k"]).
  cbn. lia.
Defined.

(** Source and target tokens that line up one to one -- a silence symbol
    against a boundary marker, a phone against a token that is none -- get
    the source durations as they are. *)
Theorem match_up_aligned
    (merlin_label : list str) (merlin_timings : list Z) (phoneme_label : list str) :
  length merlin_timings = length merlin_label ->
  Forall2 (fun source target =>
             source ∈ merlin_silence_symbols <-> startswith target (lit "<") = true)
          merlin_label phoneme_label ->
  match_up merlin_label merlin_timings phoneme_label = Return merlin_timings.
Proof.
  intros Hlen Hall.
  pose proof (Forall2_length _ _ _ Hall) as Hlen'.
  assert (Hreach : forall k, (k <= length merlin_label)%nat ->
            reaches merlin_label merlin_timings phoneme_label
              (Cursors k k (take k merlin_timings))).
  { induction k as [|k IH]; intros Hk; [rewrite take_0; constructor|].
    destruct (lookup_lt_is_Some_2 merlin_label k) as [source Hsrc]; [lia|].
    destruct (lookup_lt_is_Some_2 merlin_timings k) as [t Ht]; [lia|].
    destruct (Forall2_lookup_l _ _ _ _ _ Hall Hsrc) as (target & Htgt & Hiff).
    eapply reaches_step; [apply IH; lia|].
    unfold align_step. cbn [m d timings].
    rewrite Hsrc, Htgt, Ht, (take_S_r _ _ _ Ht).
    destruct (startswith target (lit "<")) eqn:Hstart.
    - by rewrite bool_decide_true by by apply Hiff.
    - rewrite bool_decide_false; [done|]. intros Hin%Hiff. done. }
  specialize (Hreach (length merlin_label) (le_n _)).
  rewrite <- Hlen, firstn_all, Hlen in Hreach.
  unfold match_up. rewrite (align_loop_reaches _ _ _ _ Hreach). cbn [d].
  rewrite Hlen', Nat.sub_diag. cbn [align_loop]. unfold align_step. cbn [m d].
  rewrite (lookup_ge_None_2 merlin_label) by lia. cbn.
  rewrite bool_decide_true by done. cbn.
  rewrite pad_loop_ends by (cbn; lia). cbn.
  by rewrite Nat.sub_diag, app_nil_r.
Qed.

Lemma match_up_aligned_witness :
  match_up [lit "sil"; lit "k"; lit "a"; lit "sil"] [10; 20; 30; 10]
           [lit "<s>"; lit "k"; lit "a"; lit "<e>"]
  = Return [10; 20; 30; 10].
Proof.
  apply (match_up_aligned [lit "sil"; lit "k"; lit "a"; lit "sil"] [10; 20; 30; 10]
           [lit "<s>"; lit "k"; lit "a"; lit "<e>"]); [reflexivity|].
  repeat constructor; try done; intros H; exfalso;
    repeat (apply elem_of_cons in H as [H|H]; [done|]); by apply elem_of_nil in H.
Defined.

(** The alignment feeds the hard guide: the durations that [match_up]
    returns for target tokens, at least one of them, from source durations
    that are not negative make [durations_to_attention_matrix] return a
    matrix with a row for every frame of the source and a column for every
    target token; every frame is given to one token, and the column of a
    token sums to the duration [match_up] returned for it. *)
Theorem match_up_attention_matrix
    (merlin_label : list str) (merlin_timings : list Z) (phoneme_label : list str)
    (ts : list Z) :
  phoneme_label <> [] ->
  Forall (fun x => 0 <= x) merlin_timings ->
  match_up merlin_label merlin_timings phoneme_label = Return ts ->
  exists A,
    durations_to_attention_matrix ts = Return A /\
    Z.of_nat (length A) = Zsum (take (length merlin_label) merlin_timings) /\
    Forall (fun row => length row = length phoneme_label /\ Zsum row = 1) A /\
    sum_columns (length phoneme_label) A = ts.
Proof.
  intros _ Hpos Hts.
  pose proof Hts as (s & _ & Hs & Hm & Heq)%match_up_Return.
  pose proof (reaches_invariant _ _ _ _ Hs) as (Hlen & Hd & _).
  pose proof (reaches_sum _ _ _ _ Hs) as (Hsum & _ & _ & Hnn).
  assert (Hts_pos : Forall (fun x => 0 <= x) ts).
  { rewrite Heq. apply Forall_app. split; [by apply Hnn|].
    apply Forall_forall. intros x [-> _]%elem_of_replicate. done. }
  assert (Hts_len : length ts = length phoneme_label).
  { rewrite Heq, length_app, length_replicate. lia. }
  assert (Hts_sum : Zsum ts = Zsum (take (length merlin_label) merlin_timings)).
  { by rewrite Heq, Zsum_app, Zsum_replicate_zero, Hsum, Hm, Z.add_0_r. }
  exists (painted_matrix ts).
  split; [by apply durations_to_attention_matrix_painted|].
  pose proof (Zsum_nonneg ts Hts_pos).
  split; [|split].
  - unfold painted_matrix. rewrite length_imap, length_replicate. lia.
  - apply Forall_forall. intros row Hrow.
    split; [|by eapply painted_row_sum].
    apply painted_rows in Hrow as (r & _ & ->).
    by rewrite paint_length, length_replicate.
  - rewrite <- Hts_len. by apply painted_sum_columns.
Qed.

Lemma match_up_attention_matrix_witness :
  exists A,
    durations_to_attention_matrix [1; 0; 2] = Return A /\
    Z.of_nat (length A) = Zsum (take (length [lit "sil"; lit "k"]) [1; 2]) /\
    Forall (fun row => length row = length [lit "<s>"; lit "<w>"; lit "k"] /\
                       Zsum row = 1) A /\
    sum_columns (length [lit "<s>"; lit "<w>"; lit "k"]) A = [1; 0; 2].
Proof.
  apply (match_up_attention_matrix [lit "sil"; lit "k"] [1; 2]
           [lit "<s>"; lit "<w>"; lit "k"] [1; 0; 2]).
  - done.
  - repeat constructor; lia.
  - reflexivity.
Defined.

(** ** read_transcript: what a file makes it do *)

Lemma read_transcript_fields (file : str) :
  read_transcript file
  = (check_field_counts (length (default [] (head (transcript_fields file))))
       (transcript_fields file);;
     read_fields ∅ (transcript_fields file)).
Proof. reflexivity. Qed.

Lemma check_field_counts_differ (n : nat) (pre : list (list str)) line post :
  Forall (fun l => length l = n) pre -> length line <> n ->
  check_field_counts n (pre ++ line :: post) = Raise (AssertionError (Fields line)).
Proof.
  induction 1 as [|l pre Hl _ IH]; intros Hline; cbn.
  - by rewrite bool_decide_false.
  - rewrite bool_decide_true by done. cbn. by apply IH.
Qed.

(** A line with another number of fields than the first line stops the
    reading: the call raises an [AssertionError] with that line, the first
    such line of the file. *)
Theorem read_transcript_field_counts
    (file : str) (first : list str) (pre : list (list str)) (line : list str)
    (post : list (list str)) :
  transcript_fields file = first :: pre ++ line :: post ->
  Forall (fun l => length l = length first) pre ->
  length line <> length first ->
  read_transcript file = Raise (AssertionError (Fields line)).
Proof.
  intros Hfile Hpre Hline. rewrite read_transcript_fields, Hfile.
  cbn [head default]. rewrite app_comm_cons.
  rewrite (check_field_counts_differ _ (first :: pre)); [done| |done].
  by constructor.
Qed.

Lemma read_transcript_field_counts_witness :
  read_transcript (lit "a|b|c|d" ++ [nl] ++ lit "e|f|g|h" ++ [nl] ++ lit "x|y" ++ [nl])
  = Raise (AssertionError (Fields [lit "x"; lit "y"])).
Proof.
  apply (read_transcript_field_counts _ [lit "a"; lit "b"; lit "c"; lit "d"]
           [[lit "e"; lit "f"; lit "g"; lit "h"]] [lit "x"; lit "y"] []).
  - reflexivity.
  - by repeat constructor.
  - cbn. lia.
Defined.

(** Lines that all have the same number of fields, fewer than four, stop
    the reading too: the call raises an [AssertionError] at the first line. *)
Theorem read_transcript_too_few_fields
    (file : str) (first : list str) (rest : list (list str)) :
  transcript_fields file = first :: rest ->
  Forall (fun l => length l = length first) rest ->
  (length first < 4)%nat ->
  read_transcript file = Raise (AssertionError NoInfo).
Proof.
  intros Hfile Hrest Hfirst. rewrite read_transcript_fields, Hfile.
  cbn [head default].
  rewrite check_field_counts_same by by constructor.
  cbn. by rewrite bool_decide_false by lia.
Qed.

Lemma read_transcript_too_few_fields_witness :
  read_transcript (lit "utt1|hello|h e l" ++ [nl] ++ lit "utt2|you|y u" ++ [nl])
  = Raise (AssertionError NoInfo).
Proof.
  apply (read_transcript_too_few_fields _ [lit "utt1"; lit "hello"; lit "h e l"]
           [[lit "utt2"; lit "you"; lit "y u"]]).
  - reflexivity.
  - by repeat constructor.
  - cbn. lia.
Defined.

Lemma read_fields_foldl (texts : list (list str)) (transcript : gmap str utterance) :
  Forall (fun l => 4 <= length l)%nat texts ->
  read_fields transcript texts
  = Return (foldl (fun t kv => <[kv.1 := kv.2]> t) transcript
              (omap utterance_of_fields texts)).
Proof.
  intros Hall. revert transcript.
  induction Hall as [|l texts Hl _ IH]; intros transcript; [done|].
  cbn [read_fields]. rewrite bool_decide_true by done.
  destruct l as [|base [|raw [|normtext [|ph l]]]]; cbn in Hl; try lia.
  cbn. by rewrite IH.
Qed.

(** Lines that all have the same number of fields, four or more, are read
    without an error: every line stores its id with its third field as the
    text and its fourth, cut at white space, as the phones, and of two
    lines with one id the later one stays. *)
Theorem read_transcript_total
    (file : str) (n : nat) :
  Forall (fun l => length l = n) (transcript_fields file) ->
  (4 <= n)%nat ->
  read_transcript file
  = Return (foldl (fun t kv => <[kv.1 := kv.2]> t) ∅
              (omap utterance_of_fields (transcript_fields file))).
Proof.
  intros Hall Hn. rewrite read_transcript_fields.
  rewrite check_field_counts_same.
  - cbn. apply read_fields_foldl.
    eapply Forall_impl; [exact Hall|]. cbn. lia.
  - destruct Hall as [|l rest Hl Hrest]; [constructor|].
    cbn. rewrite Hl. by constructor.
Qed.

Lemma read_transcript_total_witness :
  read_transcript (lit "u1||old|a b" ++ [nl] ++ lit "u1||new|c" ++ [nl])
  = Return (foldl (fun t kv => <[kv.1 := kv.2]> t) ∅
              (omap utterance_of_fields
                 (transcript_fields
                    (lit "u1||old|a b" ++ [nl] ++ lit "u1||new|c" ++ [nl])))).
Proof.
  apply (read_transcript_total _ 4); [|lia].
  by repeat constructor.
Defined.

(** ** write_transcript and read_transcript: with and without durations *)

Lemma good_fields_line (fields : list str) :
  good_fields fields ->
  Forall (fun c => is_linebreak c = false) (join (lit "|") fields) /\
  strip (one_of [nl; cr; " "; "|"]%char) (join (lit "|") fields ++ [nl])
    = join (lit "|") fields /\
  is_nonempty (join (lit "|") fields) = true /\
  split "|" (strip is_space (join (lit "|") fields)) = fields.
Proof.
  intros (Hplain & first & rest & front & final & Hbody & Hsnoc & Hfirst & Hpipe & [Hl1 Hl2]).
  split.
  { apply (Forall_join (P := fun c => is_linebreak c = false)).
    - by repeat constructor.
    - eapply Forall_impl; [exact Hplain|]. intros f Hf.
      eapply Forall_impl; [exact Hf|]. by intros c [_ ?]. }
  assert (Hstrip : forall c, is_space c = false -> c <> "|"%char ->
                     one_of [nl; cr; " "; "|"]%char c = false).
  { intros c Hc Hp. unfold one_of. apply bool_decide_eq_false.
    intros Hin. repeat (apply elem_of_cons in Hin as [->|Hin]; [done|]).
    by apply elem_of_nil in Hin. }
  rewrite Hbody.
  split; [by apply (strip_line _ first final rest front); auto|].
  split; [done|].
  rewrite (strip_kept _ first final rest front) by done.
  rewrite <- Hbody. destruct fields as [|f fields]; [done|].
  apply (split_join "|"%char).
  eapply Forall_impl; [exact Hplain|]. intros x Hx Hin.
  eapply Forall_forall in Hx as [Hx _]; [|done]. done.
Qed.

(** Lines made of good fields are read back as their fields. *)
Lemma transcript_fields_lines (F : list (list str)) :
  Forall good_fields F ->
  transcript_fields (mjoin ((fun fs => join (lit "|") fs ++ [nl]) <$> F)) = F.
Proof.
  intros HF.
  assert (Hall : Forall (fun fs =>
            Forall (fun c => is_linebreak c = false) (join (lit "|") fs) /\
            strip (one_of [nl; cr; " "; "|"]%char) (join (lit "|") fs ++ [nl])
              = join (lit "|") fs /\
            is_nonempty (join (lit "|") fs) = true /\
            split "|" (strip is_space (join (lit "|") fs)) = fs) F).
  { eapply Forall_impl; [exact HF|]. apply good_fields_line. }
  unfold transcript_fields.
  rewrite (list_fmap_compose (join (lit "|")) (fun b => b ++ [nl])).
  rewrite readlines_lines.
  2:{ apply Forall_fmap. eapply Forall_impl; [exact Hall|]. by intros fs (? & _). }
  rewrite <- !list_fmap_compose.
  assert ((strip (one_of [nl; cr; " "; "|"]%char) ∘ (fun b => b ++ [nl]) ∘ join (lit "|"))
            <$> F = join (lit "|") <$> F) as ->.
  { apply Forall_fmap_ext_1.
    eapply Forall_impl; [exact Hall|]. by intros fs (_ & ? & _). }
  rewrite filter_all.
  2:{ apply Forall_fmap. eapply Forall_impl; [exact Hall|]. by intros fs (_ & _ & ? & _). }
  rewrite <- list_fmap_compose. rewrite <- (list_fmap_id F) at 2.
  apply Forall_fmap_ext_1.
  eapply Forall_impl; [exact Hall|]. by intros fs (_ & _ & _ & ?).
Qed.

Lemma write_line_record (dur : bool) (base : str) (u : utterance) :
  write_line base u dur = join (lit "|") <$> record_fields dur base u.
Proof.
  unfold write_line, record_fields. destruct dur.
  - destruct (duration u) as [ds|]; [|done]. cbn [fmap option_fmap option_map app].
    rewrite !join_cons_cons. cbn [join]. f_equal. by rewrite <- !app_assoc.
  - cbn [fmap option_fmap option_map]. rewrite !join_cons_cons. cbn [join].
    f_equal.
Qed.

Lemma record_fields_good (dur : bool) (base : str) (u : utterance) (fs : list str) :
  clean_record dur base u -> record_fields dur base u = Some fs -> good_fields fs.
Proof.
  intros ((Hplain & c & b & Hbase & Hc) & Htext & Hne & Hphones & Hds) Hfs.
  assert (Hspace : Forall plain (lit " ")) by by repeat constructor.
  assert (Hjoin : Forall plain (join (lit " ") (phones u))).
  { apply Forall_join; [done|].
    eapply Forall_impl; [done|]. intros t [_ Ht].
    eapply Forall_impl; [done|]. apply solid_plain. }
  assert (Hpipe : c <> "|"%char).
  { rewrite Hbase in Hplain. by apply Forall_cons in Hplain as [[? _] _]. }
  unfold record_fields in Hfs. destruct dur.
  - destruct (duration u) as [ds|] eqn:Hdur; [|done]. injection Hfs as <-.
    specialize (Hds eq_refl ds eq_refl).
    destruct (join_tokens_last (str_of_int <$> ds)) as (s & z & Hs & Hz).
    { by destruct ds. }
    { apply Forall_fmap, Forall_forall. intros v _. apply str_of_int_token. }
    split.
    + repeat constructor; try done.
      apply Forall_join; [done|]. apply Forall_fmap, Forall_forall.
      intros v _. cbn. destruct (str_of_int_token v) as [_ Hv].
      eapply Forall_impl; [done|]. apply solid_plain.
    + cbn [app]. rewrite !join_cons_cons. cbn [join].
      change [" "%char] with (lit " "). rewrite Hs, Hbase.
      set (middle := lit "|" ++ [] ++ lit "|" ++ text u ++ lit "|" ++
                     join (lit " ") (phones u) ++ lit "|" ++ [] ++ lit "|").
      exists c, (b ++ middle ++ s ++ [z]), ((c :: b) ++ middle ++ s), z.
      split; [subst middle; by rewrite <- !app_assoc|].
      split; [by rewrite <- !app_assoc|]. done.
  - injection Hfs as <-.
    destruct (join_tokens_last (phones u)) as (s & z & Hs & Hz); [done..|].
    split; [by repeat constructor|].
    rewrite !join_cons_cons. cbn [join].
    change [" "%char] with (lit " "). rewrite Hs, Hbase.
    set (middle := lit "|" ++ [] ++ lit "|" ++ text u ++ lit "|").
    exists c, (b ++ middle ++ s ++ [z]), ((c :: b) ++ middle ++ s), z.
    split; [subst middle; by rewrite <- !app_assoc|].
    split; [by rewrite <- !app_assoc|]. done.
Qed.

Lemma record_fields_read (dur : bool) (base : str) (u : utterance) (fs : list str) :
  clean_record dur base u -> record_fields dur base u = Some fs ->
  utterance_of_fields fs = Some (base, without_duration u) /\
  length fs = if dur then 6%nat else 4%nat.
Proof.
  intros (_ & _ & Hne & Hphones & _) Hfs.
  unfold record_fields in Hfs. destruct dur.
  - destruct (duration u); [|done]. injection Hfs as <-.
    cbn. by rewrite re_split_spaces_join.
  - injection Hfs as <-. cbn. by rewrite re_split_spaces_join.
Qed.

Lemma foldl_lines_any (texts : gmap str utterance) (dur : bool) (ks : list str) (f : str) :
  foldl (fun f base =>
           match texts !! base with
           | Some u =>
               match write_line base u dur with
               | Some line => f ++ line ++ [nl]
               | None => f
               end
           | None => f
           end) f ks
  = f ++ mjoin ((fun fs => join (lit "|") fs ++ [nl])
                  <$> omap (written_record texts dur) ks).
Proof.
  revert f. induction ks as [|k ks IH]; intros f; [by rewrite app_nil_r|].
  cbn [foldl omap list_omap]. rewrite IH. unfold written_record at 2.
  destruct (texts !! k) as [u|]; [|done]. cbn [mbind option_bind].
  rewrite write_line_record.
  destruct (record_fields dur k u) as [fs|]; [|done].
  cbn. by rewrite <- !app_assoc.
Qed.

Lemma foldl_insert_omap (h : str -> option utterance) (ks : list str)
    (t : gmap str utterance) (j : str) :
  foldl (fun t kv => <[kv.1 := kv.2]> t) t (omap (fun k => (k,.) <$> h k) ks) !! j
  = if decide (j ∈ ks) then (match h j with Some v => Some v | None => t !! j end)
    else t !! j.
Proof.
  revert t. induction ks as [|k ks IH]; intros t.
  - cbn. rewrite decide_False; [done|]. apply not_elem_of_nil.
  - cbn [omap list_omap]. destruct (h k) as [v|] eqn:Hk; cbn [fmap option_fmap option_map foldl].
    + rewrite IH. cbn [fst snd]. destruct (decide (j = k)) as [->|Hne].
      * rewrite Hk, lookup_insert_eq.
        rewrite (decide_True (P := k ∈ k :: ks)) by by left.
        by destruct (decide (k ∈ ks)).
      * rewrite lookup_insert_ne by done.
        destruct (decide (j ∈ ks)) as [Hin|Hin].
        -- rewrite decide_True; [done|]. by right.
        -- rewrite decide_False; [done|]. by intros [?|?]%elem_of_cons.
    + rewrite IH. destruct (decide (j ∈ ks)) as [Hin|Hin].
      * rewrite decide_True; [done|]. by right.
      * destruct (decide (j = k)) as [->|Hne].
        -- rewrite decide_True by by left. by rewrite Hk.
        -- rewrite decide_False; [done|]. by intros [?|?]%elem_of_cons.
Qed.

Section any_file.
Variables (texts : gmap str utterance) (dur : bool).
Hypothesis texts_clean : map_Forall (clean_record dur) texts.

Lemma written_record_good (k : str) (fs : list str) :
  written_record texts dur k = Some fs ->
  good_fields fs /\
  utterance_of_fields fs
    = (k,.) <$> (u ← texts !! k; _ ← record_fields dur k u; Some (without_duration u)) /\
  length fs = if dur then 6%nat else 4%nat.
Proof.
  unfold written_record. intros Hfs.
  destruct (texts !! k) as [u|] eqn:Hu; [|done]. cbn in Hfs |- *.
  pose proof (texts_clean k u Hu) as Hclean.
  split; [by eapply record_fields_good|].
  rewrite Hfs. cbn. by apply record_fields_read.
Qed.

(** The file written from [texts] is read back as the utterances of the
    lines that were written. *)
Lemma read_write_lookup :
  exists back,
    read_transcript (write_transcript texts dur) = Return back /\
    forall j, back !! j
      = (u ← texts !! j; _ ← record_fields dur j u; Some (without_duration u)).
Proof.
  set (ks := sorted (map_to_list texts).*1).
  set (F := omap (written_record texts dur) ks).
  set (h := fun k : str =>
              u ← texts !! k; _ ← record_fields dur k u; Some (without_duration u)).
  assert (HF : Forall (fun fs => good_fields fs /\
                 length fs = if dur then 6%nat else 4%nat) F).
  { apply Forall_forall. intros fs (k & _ & Hk)%list_elem_of_omap.
    by apply written_record_good in Hk as (? & _ & ?). }
  assert (Hutt : omap utterance_of_fields F = omap (fun k => (k,.) <$> h k) ks).
  { subst F. clear HF. induction ks as [|k ks' IH]; [done|].
    cbn [omap list_omap].
    destruct (written_record texts dur k) as [fs|] eqn:Hk.
    - apply written_record_good in Hk as Hgood. destruct Hgood as (_ & Hread & _).
      cbn [omap list_omap]. rewrite Hread. fold (h k).
      destruct (h k); cbn; by rewrite IH.
    - assert (h k = None) as ->; [|done].
      subst h. cbn. unfold written_record in Hk.
      destruct (texts !! k) as [u|]; [|done]. cbn in *. by rewrite Hk. }
  exists (foldl (fun t kv => <[kv.1 := kv.2]> t) ∅ (omap (fun k => (k,.) <$> h k) ks)).
  split.
  - unfold write_transcript. rewrite foldl_lines_any, app_nil_l.
    fold ks. fold F. rewrite read_transcript_fields.
    rewrite transcript_fields_lines
      by (eapply Forall_impl; [exact HF|]; by intros fs [? _]).
    assert (Hcheck : check_field_counts (length (default [] (head F))) F = Return tt).
    { apply check_field_counts_same.
      assert (HF' : Forall (fun fs => length fs = if dur then 6%nat else 4%nat) F).
      { eapply Forall_impl; [exact HF|]. by intros fs [_ ?]. }
      clear HF Hutt. clearbody F.
      destruct HF' as [|fs rest Hfs Hrest]; [constructor|].
      cbn. rewrite Hfs. by constructor. }
    rewrite Hcheck. cbn [mbind result_bind].
    rewrite read_fields_foldl, Hutt; [done|].
    eapply Forall_impl; [exact HF|]. intros fs [_ ->]. destruct dur; lia.
  - intros j. rewrite foldl_insert_omap, lookup_empty. fold (h j).
    destruct (decide (j ∈ ks)) as [Hin|Hin]; [by destruct (h j)|].
    subst h. cbn. destruct (texts !! j) eqn:Hj; [|done].
    destruct Hin. apply sorted_keys_elem. by rewrite Hj.
Qed.
End any_file.

(** Written without durations, a transcript comes back whole: for ids and
    texts without "|" and ends of lines, ids that start with a character
    that is not white space, and phones that are tokens, at least one for
    an utterance, reading the file gives every id its phones and its text
    again (and no durations, which were not written). *)
Theorem transcript_roundtrip_plain (texts : gmap str utterance) :
  map_Forall (clean_record false) texts ->
  read_transcript (write_transcript texts false)
  = Return (without_duration <$> texts).
Proof.
  intros Hclean.
  destruct (read_write_lookup texts false Hclean) as (back & -> & Hlook).
  f_equal. apply map_eq. intros j. rewrite Hlook, lookup_fmap.
  by destruct (texts !! j).
Qed.

Lemma transcript_roundtrip_plain_witness :
  read_transcript
    (write_transcript
       {[ lit "utt1" := Utterance [lit "<s>"; lit "k"; lit "a"] (lit "ka, ka") None ]}
       false)
  = Return (without_duration <$>
      {[ lit "utt1" := Utterance [lit "<s>"; lit "k"; lit "a"] (lit "ka, ka") None ]}).
Proof.
  apply (transcript_roundtrip_plain
    {[ lit "utt1" := Utterance [lit "<s>"; lit "k"; lit "a"] (lit "ka, ka") None ]}).
  apply map_Forall_singleton. split.
  - split; [by repeat constructor|]. by eexists _, _.
  - split; [by repeat constructor|]. split; [done|].
    split; [|done]. repeat constructor; done.
Defined.

(** Written with durations, the utterances that have none are left out of
    the file and the others come back, without their durations: reading
    the file gives exactly the ids that have durations, each with its
    phones and its text. *)
Theorem transcript_roundtrip_skips (texts : gmap str utterance) :
  map_Forall (clean_record true) texts ->
  read_transcript (write_transcript texts true)
  = Return (without_duration
              <$> filter (fun kv => is_Some (duration kv.2)) texts).
Proof.
  intros Hclean.
  destruct (read_write_lookup texts true Hclean) as (back & -> & Hlook).
  f_equal. apply map_eq. intros j.
  rewrite Hlook, lookup_fmap, map_lookup_filter.
  destruct (texts !! j) as [u|]; [|done]. cbn.
  unfold record_fields. destruct (duration u) as [ds|] eqn:Hds; cbn.
  - rewrite option_guard_True; [done|]. by eexists.
  - rewrite option_guard_False; [done|]. by intros [? ?].
Qed.

Lemma transcript_roundtrip_skips_witness :
  read_transcript
    (write_transcript
       (<[ lit "utt2" := Utterance [lit "o"] (lit "oh") None ]>
          {[ lit "utt1" := Utterance [lit "k"; lit "a"] (lit "ka") (Some [3; 4]) ]})
       true)
  = Return (without_duration
              <$> filter (fun kv => is_Some (duration kv.2))
                    (<[ lit "utt2" := Utterance [lit "o"] (lit "oh") None ]>
                       {[ lit "utt1" := Utterance [lit "k"; lit "a"] (lit "ka") (Some [3; 4]) ]})).
Proof.
  apply (transcript_roundtrip_skips
           (<[ lit "utt2" := Utterance [lit "o"] (lit "oh") None ]>
              {[ lit "utt1" := Utterance [lit "k"; lit "a"] (lit "ka") (Some [3; 4]) ]})).
  apply map_Forall_insert_2; [|apply map_Forall_singleton].
  - split; [split; [by repeat constructor|by eexists _, _]|].
    split; [by repeat constructor|]. split; [done|].
    split; [repeat constructor; done|]. by intros _ ds.
  - split; [split; [by repeat constructor|by eexists _, _]|].
    split; [by repeat constructor|]. split; [done|].
    split; [repeat constructor; done|]. intros _ ds [= <-]. done.
Defined.

(** ** write_transcript: the order of the lines *)

Lemma N_of_ascii_inj (x y : ascii) : N_of_ascii x = N_of_ascii y -> x = y.
Proof.
  intros H. rewrite <- (ascii_N_embedding x), <- (ascii_N_embedding y). by rewrite H.
Qed.

Lemma str_leb_total (a b : str) : str_leb a b = true \/ str_leb b a = true.
Proof.
  revert b. induction a as [|x a IH]; intros [|y b]; cbn; auto.
  destruct (decide (x = y)) as [->|Hne].
  - rewrite decide_True by done. apply IH.
  - rewrite decide_False by done.
    assert (N_of_ascii x <> N_of_ascii y) by (intros ?%N_of_ascii_inj; done).
    destruct (N.lt_trichotomy (N_of_ascii x) (N_of_ascii y)) as [?|[?|?]]; [|done|].
    + left. by apply bool_decide_eq_true.
    + right. by apply bool_decide_eq_true.
Qed.

Lemma str_leb_trans (a b c : str) :
  str_leb a b = true -> str_leb b c = true -> str_leb a c = true.
Proof.
  revert b c. induction a as [|x a IH]; intros [|y b] [|z c]; cbn; try done.
  destruct (decide (x = y)) as [->|Hxy].
  - destruct (decide (y = z)) as [->|Hyz]; [apply IH|done].
  - intros Hlt%bool_decide_eq_true.
    destruct (decide (y = z)) as [->|Hyz].
    + intros _. rewrite decide_False by done. by apply bool_decide_eq_true.
    + intros Hlt'%bool_decide_eq_true.
      destruct (decide (x = z)) as [->|Hxz]; [lia|].
      apply bool_decide_eq_true. lia.
Qed.

Lemma str_le_total : Total str_le.
Proof.
  intros a b. unfold str_le.
  destruct (str_leb_total a b) as [->| ->]; [by left|by right].
Qed.

Lemma str_le_trans : Transitive str_le.
Proof.
  intros a b c Hab%Is_true_true Hbc%Is_true_true.
  apply Is_true_true. by eapply str_leb_trans.
Qed.

(** The file has one line for every utterance that is written, and the
    lines come in the ascending order of the ids, every id once. *)
Theorem write_transcript_sorted (texts : gmap str utterance) (dur : bool) :
  exists ks,
    ks ≡ₚ (map_to_list texts).*1 /\ NoDup ks /\ StronglySorted str_le ks /\
    write_transcript texts dur
    = mjoin ((fun fs => join (lit "|") fs ++ [nl])
               <$> omap (written_record texts dur) ks).
Proof.
  exists (sorted (map_to_list texts).*1).
  split; [apply merge_sort_Permutation|].
  split.
  { unfold sorted. rewrite merge_sort_Permutation. apply NoDup_fst_map_to_list. }
  split.
  { apply (@StronglySorted_merge_sort _ str_le _ str_le_trans str_le_total). }
  unfold write_transcript. by rewrite foldl_lines_any.
Qed.

(** ** The names: monophones and the ids of the files *)

(** The first field of what follows starts with what has no separator. *)
Lemma split_from_prefix (sep : ascii) (s cur rest : str) :
  sep ∉ s ->
  exists x tail, split_from sep cur (s ++ rest) = (cur ++ s ++ x) :: tail.
Proof.
  intros Hs. revert cur. induction s as [|c s IH]; intros cur.
  - cbn. revert cur. induction rest as [|c rest IH]; intros cur.
    + exists [], []. by rewrite app_nil_r.
    + cbn. destruct (bool_decide (c = sep)).
      * exists [], (split_from sep [] rest). by rewrite app_nil_r.
      * destruct (IH (cur ++ [c])) as (x & tail & ->).
        exists (c :: x), tail. by rewrite <- app_assoc.
  - apply not_elem_of_cons in Hs as [Hc Hs]. cbn.
    rewrite bool_decide_false by done.
    destruct (IH Hs (cur ++ [c])) as (x & tail & ->).
    exists x, tail. by rewrite <- !app_assoc.
Qed.

(** The monophone of a full-context label is what stands between its first
    "-" and the "+" after it. *)
Theorem monophone_of_label (pre phone post : str) :
  "-"%char ∉ pre -> "-"%char ∉ phone -> "+"%char ∉ phone ->
  monophone_of (pre ++ "-"%char :: phone ++ "+"%char :: post) = Return phone.
Proof.
  intros Hpre Hminus Hplus. unfold monophone_of, split.
  rewrite split_from_field by done.
  replace (phone ++ "+"%char :: post) with ((phone ++ ["+"%char]) ++ post)
    by by rewrite <- app_assoc.
  destruct (split_from_prefix "-" (phone ++ ["+"%char]) [] post) as (x & tail & ->).
  { intros [?|Hin]%elem_of_app; [done|].
    apply list_elem_of_singleton in Hin. done. }
  cbn [item lookup list_lookup mbind result_bind app].
  rewrite <- app_assoc. cbn [app].
  by rewrite split_from_field.
Qed.

Lemma monophone_of_label_witness :
  monophone_of (lit "x^sil-k+a=t@1_2/A:0") = Return (lit "k").
Proof.
  apply (monophone_of_label (lit "x^sil") (lit "k") (lit "a=t@1_2/A:0")).
  - intros H. repeat (apply elem_of_cons in H as [H|H]; [done|]). by apply elem_of_nil in H.
  - intros H. repeat (apply elem_of_cons in H as [H|H]; [done|]). by apply elem_of_nil in H.
  - intros H. repeat (apply elem_of_cons in H as [H|H]; [done|]). by apply elem_of_nil in H.
Defined.

(** A label without "-" has no second part: taking its monophone raises
    [IndexError]. *)
Theorem monophone_of_plain_label (label : str) :
  "-"%char ∉ label -> monophone_of label = Raise IndexError.
Proof.
  intros Hlabel. unfold monophone_of, split.
  by rewrite split_from_plain.
Qed.

Lemma monophone_of_plain_label_witness :
  monophone_of (lit "sil") = Raise IndexError.
Proof.
  apply (monophone_of_plain_label (lit "sil")).
  intros H. repeat (apply elem_of_cons in H as [H|H]; [done|]). by apply elem_of_nil in H.
Defined.

Lemma last_split_from (sep : ascii) (dir cur name : str) :
  sep ∉ name ->
  last (split_from sep cur (dir ++ sep :: name)) = Some name.
Proof.
  intros Hname. revert cur. induction dir as [|c dir IH]; intros cur.
  - cbn. rewrite bool_decide_true by done.
    rewrite split_from_plain by done. done.
  - cbn. destruct (bool_decide (c = sep)); [|apply IH].
    specialize (IH []).
    destruct (split_from sep [] (dir ++ sep :: name)); [done|]. exact IH.
Qed.

(** The id of a file is the last part of its path, the extension with it:
    what follows the last "/", or the whole path when it has none. *)
Theorem wav_id_last_part (dir name : str) :
  "/"%char ∉ name ->
  wav_id (dir ++ "/"%char :: name) = Return name /\ wav_id name = Return name.
Proof.
  intros Hname. unfold wav_id, item_last, split. split.
  - by rewrite last_split_from.
  - by rewrite split_from_plain.
Qed.

Lemma wav_id_last_part_witness :
  wav_id (lit "data/wavs/utt1.wav") = Return (lit "utt1.wav") /\
  wav_id (lit "utt1.wav") = Return (lit "utt1.wav").
Proof.
  apply (wav_id_last_part (lit "data/wavs") (lit "utt1.wav")).
  intros H. repeat (apply elem_of_cons in H as [H|H]; [done|]). by apply elem_of_nil in H.
Defined.
